(** * The alarm monitoring engine of the calendar front end

    A shallow embedding of the alarm engine of [src/frontend/src/App.js]:
    the monitoring effect (lines 57-67), [startAlarmMonitoring] (156-169),
    [checkAlarms] (171-188) and [triggerAlarm] (190-213), together with the
    parts of the JavaScript run time they rely on ([Date], [localStorage],
    [setInterval] / [clearInterval], exceptions). *)

From Stdlib Require Import ZArith Lia List Bool.
From stdpp Require Import gmap strings list fin_maps.

Local Open Scope Z_scope.

(** ** JavaScript dates

    A [Date] object is modelled by its time value: [Some t] for [t]
    milliseconds since the epoch, [None] for the [NaN] of an Invalid Date.
    All numbers that reach the engine are integers, on which the double
    arithmetic of [e - m * 60000] followed by the range test of the [Date]
    constructor agrees with the same computation over [Z]: every integer
    result of magnitude at most [2^53] is exact, and a rounded result lies
    outside the [Date] range exactly when the exact one does. *)

Module JsDate.

(** The largest magnitude of a time value (ECMAScript, "Time Values and
    Time Range"): 8.64e15 ms, one hundred million days around the epoch. *)
Definition MAX_TIME : Z := 8640000000000000.

(** [TimeClip]: what [new Date(t)] stores for the number [t]. *)
Definition TimeClip (t : Z) : option Z :=
  if Z.abs t <=? MAX_TIME then Some t else None.

(** [new Date(v)] where [v] already denotes a number or [NaN]. *)
Definition new_Date (v : option Z) : option Z :=
  match v with
  | Some t => TimeClip t
  | None => None
  end.

(** [x >= y] and [x < y] on dates: both operands are converted to their
    time values, and a comparison with [NaN] is false. *)
Definition ge (x y : option Z) : bool :=
  match x, y with
  | Some a, Some b => b <=? a
  | _, _ => false
  end.

Definition lt (x y : option Z) : bool :=
  match x, y with
  | Some a, Some b => a <? b
  | _, _ => false
  end.

End JsDate.

(** ** Alarm records

    The fields of an alarm object that the engine reads.  [event_start] is
    the number that [new Date(alarm.event_start)] is built from: [None] when
    the field is missing ([undefined]) or a string that does not parse, the
    parsed instant otherwise (a JSON [null] is the number 0, the epoch).
    [alarm_minutes_before] is the lead time in whole minutes. *)

Module Alarm.
Record t : Type := mk {
  id : string;
  event_id : string;
  event_title : string;
  event_start : option Z;
  alarm_minutes_before : Z
}.
End Alarm.

Abbreviation alarm := Alarm.t.

(** ** The trigger condition of [checkAlarms] (lines 175-179) *)

(** [const eventTime = new Date(alarm.event_start)] *)
Definition eventTime (a : alarm) : option Z :=
  JsDate.new_Date (Alarm.event_start a).

(** [const alarmTime =
       new Date(eventTime.getTime() - alarm.alarm_minutes_before * 60000)] *)
Definition alarmTime (a : alarm) : option Z :=
  JsDate.new_Date
    (match eventTime a with
     | Some e => Some (e - Alarm.alarm_minutes_before a * 60000)
     | None => None
     end).

(** [now >= alarmTime && now < eventTime], where [now = new Date()] is the
    wall clock and therefore a valid date. *)
Definition in_firing_window (now : Z) (a : alarm) : bool :=
  JsDate.ge (Some now) (alarmTime a) && JsDate.lt (Some now) (eventTime a).

(** ** The Trigger Evaluator as the specification words it

    These definitions follow the specification (sections 3 and 4.1), not
    the code; they are what [in_firing_window] is compared with. *)

Definition trigger_instant (start lead : Z) : Z := start - lead * 60000.

Inductive decision : Type := Pending | Fire | Expired.

Inductive evaluate_spec (now start lead : Z) : decision -> Prop :=
  | spec_Pending :
      now < trigger_instant start lead ->
      evaluate_spec now start lead Pending
  | spec_Fire :
      trigger_instant start lead <= now < start ->
      evaluate_spec now start lead Fire
  | spec_Expired :
      start <= now ->
      evaluate_spec now start lead Expired.

(** ** The world an evaluation pass acts on

    [localStorage] is a finite map from keys to strings.  Everything else a
    pass does to the outside is recorded, in order, in a trace: the calls of
    [checkAlarms] (with the clock value read by [new Date()]) and of
    [triggerAlarm], and what each notification channel delivered. *)

Inductive effect : Type :=
  | CallCheckAlarms (now : Z)
  | CallTriggerAlarm (alarm_id : string)
  | AudioPlay
  | ConsoleError
  | Toast (title : string) (minutes : Z)
  | OsNotification (title : string) (minutes : Z).

Record world : Type := mkWorld {
  localStorage : gmap string string;
  trace : list effect
}.

(** What the surroundings answer when a channel or the store is used.

    - audio: [audioRef.current] is null; [play()] starts; [play()] returns a
      promise that rejects (handled by the [.catch] of line 193, which logs
      it); or the call itself throws;
    - in-app banner: [toast.error] returns or throws;
    - OS notification: the guard of line 206 is false; the constructor
      returns; or the constructor throws;
    - [setItem_stores k] is false when [localStorage.setItem(k, _)] throws
      (quota exceeded, storage disabled). *)

Inductive audio_outcome : Type :=
  AudioNoElement | AudioPlays | AudioRejects | AudioThrows.
Inductive toast_outcome : Type := ToastShown | ToastThrows.
Inductive notification_outcome : Type :=
  NotificationNotGranted | NotificationShown | NotificationThrows.

Record env : Type := mkEnv {
  audio : alarm -> audio_outcome;
  toast : alarm -> toast_outcome;
  notification : alarm -> notification_outcome;
  setItem_stores : string -> bool
}.

(** ** Statements with side effects and exceptions

    A statement transforms the world and completes normally with a value or
    abruptly with a thrown error; the effects that precede a throw stay. *)

Inductive exn : Type :=
  AudioFailure | ToastFailure | NotificationFailure | StorageFailure.

Inductive completion (A : Type) : Type :=
  | Normal (a : A)
  | Throw (e : exn).
Arguments Normal {A} a.
Arguments Throw {A} e.

Definition M (A : Type) : Type := world -> world * completion A.

Definition ret {A} (a : A) : M A := fun w => (w, Normal a).

Definition bind {A B} (m : M A) (k : A -> M B) : M B :=
  fun w =>
    match m w with
    | (w', Normal a) => k a w'
    | (w', Throw e) => (w', Throw e)
    end.

Definition throw {A} (e : exn) : M A := fun w => (w, Throw e).

Declare Scope js_scope.
Delimit Scope js_scope with js.
Notation "x <- m ;;; k" := (bind m (fun x => k))
  (at level 20, m at level 99, k at level 200, only parsing) : js_scope.
Notation "m ;;; k" := (bind m (fun _ => k))
  (at level 100, k at level 200, right associativity, only parsing) : js_scope.
Local Open Scope js_scope.

Definition emit (e : effect) : M unit :=
  fun w => ({| localStorage := localStorage w; trace := trace w ++ [e] |}, Normal tt).

(** [localStorage.getItem(k)]: the stored string, or [null]. *)
Definition getItem (k : string) : M (option string) :=
  fun w => (w, Normal (localStorage w !! k)).

(** [localStorage.setItem(k, v)] *)
Definition setItem (E : env) (k v : string) : M unit :=
  fun w =>
    if setItem_stores E k
    then ({| localStorage := <[k := v]> (localStorage w); trace := trace w |}, Normal tt)
    else (w, Throw StorageFailure).

(** [!v] for the result of [getItem]: [null] and the empty string are
    falsy, every other string is truthy. *)
Definition js_not (v : option string) : bool :=
  match v with
  | None => true
  | Some EmptyString => true
  | Some (String _ _) => false
  end.

(** [alarms.forEach(f)]: the first throw ends the loop. *)
Fixpoint forEach (f : alarm -> M unit) (l : list alarm) : M unit :=
  match l with
  | [] => ret tt
  | a :: l' => f a ;;; forEach f l'
  end.

(** ** [triggerAlarm] (lines 190-213) *)

Definition triggerAlarm (E : env) (a : alarm) : M unit :=
  emit (CallTriggerAlarm (Alarm.id a)) ;;;
  (* Play audio *)
  match audio E a with
  | AudioNoElement => ret tt
  | AudioPlays => emit AudioPlay
  | AudioRejects => emit AudioPlay ;;; emit ConsoleError
  | AudioThrows => throw AudioFailure
  end ;;;
  (* Show notification *)
  match toast E a with
  | ToastShown => emit (Toast (Alarm.event_title a) (Alarm.alarm_minutes_before a))
  | ToastThrows => throw ToastFailure
  end ;;;
  (* Browser notification if permitted *)
  match notification E a with
  | NotificationNotGranted => ret tt
  | NotificationShown =>
      emit (OsNotification (Alarm.event_title a) (Alarm.alarm_minutes_before a))
  | NotificationThrows => throw NotificationFailure
  end.

(** ** [checkAlarms] (lines 171-188) *)

(** [`alarm_triggered_${alarm.id}`] *)
Definition triggeredKey (alarm_id : string) : string :=
  "alarm_triggered_" +:+ alarm_id.

(** The callback passed to [forEach]. *)
Definition checkAlarm (now : Z) (E : env) (a : alarm) : M unit :=
  if in_firing_window now a then
    (v <- getItem (triggeredKey (Alarm.id a)) ;;;
     if js_not v then
       (triggerAlarm E a ;;;
        setItem E (triggeredKey (Alarm.id a)) "true")
     else ret tt)
  else ret tt.

Definition checkAlarms (now : Z) (E : env) (alarms : list alarm) : M unit :=
  emit (CallCheckAlarms now) ;;;
  forEach (checkAlarm now E) alarms.

(** ** The component instance that owns the timer

    The React state [alarms] and [isAuthenticated], the ref
    [alarmCheckIntervalRef], and the browser's table of active intervals.
    The only interval the application ever installs is the one of line 163,
    whose callback calls the [checkAlarms] closure of the render that
    installed it; an entry of the table therefore records the alarm list
    that closure captured.  [setInterval] hands out fresh handles, which are
    positive integers. *)

Record engine : Type := mkEngine {
  alarms : list alarm;
  isAuthenticated : bool;
  alarmCheckIntervalRef : option nat;
  intervals : gmap nat (list alarm);
  next_handle : nat;
  outside : world
}.

Definition initial (w : world) : engine :=
  {| alarms := []; isAuthenticated := false; alarmCheckIntervalRef := None;
     intervals := ∅; next_handle := 1; outside := w |}.

(** [clearInterval(h)] *)
Definition clearInterval (h : nat) (s : engine) : engine :=
  {| alarms := alarms s; isAuthenticated := isAuthenticated s;
     alarmCheckIntervalRef := alarmCheckIntervalRef s;
     intervals := delete h (intervals s);
     next_handle := next_handle s; outside := outside s |}.

(** [if (alarmCheckIntervalRef.current)
       clearInterval(alarmCheckIntervalRef.current)]:
    [null] and [0] are falsy. *)
Definition clearCurrentInterval (s : engine) : engine :=
  match alarmCheckIntervalRef s with
  | Some (S h) => clearInterval (S h) s
  | Some O => s
  | None => s
  end.

(** [alarmCheckIntervalRef.current = setInterval(() => checkAlarms(), 10000)] *)
Definition setCheckInterval (s : engine) : engine :=
  {| alarms := alarms s; isAuthenticated := isAuthenticated s;
     alarmCheckIntervalRef := Some (next_handle s);
     intervals := <[next_handle s := alarms s]> (intervals s);
     next_handle := S (next_handle s); outside := outside s |}.

(** Running a statement on the world of the engine. *)
Definition on_outside (m : M unit) (s : engine) : engine * completion unit :=
  let '(w, c) := m (outside s) in
  ({| alarms := alarms s; isAuthenticated := isAuthenticated s;
      alarmCheckIntervalRef := alarmCheckIntervalRef s;
      intervals := intervals s;
      next_handle := next_handle s; outside := w |}, c).

(** [startAlarmMonitoring] (lines 156-169) *)
Definition startAlarmMonitoring (now : Z) (E : env) (s : engine)
  : engine * completion unit :=
  (* Clear existing interval *)
  let s1 := clearCurrentInterval s in
  (* Check alarms every 10 seconds *)
  let s2 := setCheckInterval s1 in
  (* Check immediately *)
  on_outside (checkAlarms now E (alarms s2)) s2.

(** The body of the monitoring effect (lines 58-60), run by React after a
    render whose [alarms] or [isAuthenticated] differ from the previous
    render's. *)
Definition monitoringEffect (now : Z) (E : env) (s : engine)
  : engine * completion unit :=
  if isAuthenticated s && (0 <? length (alarms s))%nat
  then startAlarmMonitoring now E s
  else (s, Normal tt).

(** The function the effect returns (lines 62-66). *)
Definition monitoringCleanup (s : engine) : engine := clearCurrentInterval s.

(** [setAlarms] / [setIsAuthenticated] followed by the render. *)
Definition render (l : list alarm) (auth : bool) (s : engine) : engine :=
  {| alarms := l; isAuthenticated := auth;
     alarmCheckIntervalRef := alarmCheckIntervalRef s;
     intervals := intervals s;
     next_handle := next_handle s; outside := outside s |}.

(** What can happen to the instance.  [Commit l auth now E]: the state
    becomes [l], [auth] and the effect body runs at time [now];
    [Cleanup]: React calls the function returned by the effect;
    [TimerFires h now E]: the 10 s timer with handle [h], if active, calls
    its callback.  The events may come in any order, which covers React's
    own order (cleanup of the previous run, then the body) and more. *)
Inductive event : Type :=
  | Commit (l : list alarm) (auth : bool) (now : Z) (E : env)
  | Cleanup
  | TimerFires (h : nat) (now : Z) (E : env).

Definition step (s : engine) (ev : event) : engine :=
  match ev with
  | Commit l auth now E => fst (monitoringEffect now E (render l auth s))
  | Cleanup => monitoringCleanup s
  | TimerFires h now E =>
      match intervals s !! h with
      | Some l => fst (on_outside (checkAlarms now E l) s)
      | None => s
      end
  end.

Definition run (s : engine) (evs : list event) : engine := fold_left step evs s.

(** The Alarm Set Synchronizer: [setAlarms(l)] makes React call the cleanup
    that the previous run of the effect returned and then run the effect
    again with the new list. *)
Definition sync (l : list alarm) (now : Z) (E : env) (s : engine) : engine :=
  run s [Cleanup; Commit l (isAuthenticated s) now E].




(** ** Observations on traces and stores *)

Definition is_fanout_of (i : string) (e : effect) : bool :=
  match e with
  | CallTriggerAlarm j => String.eqb i j
  | _ => false
  end.

(** How often [triggerAlarm] was called for the alarm identifier [i]. *)
Definition fanout_count (i : string) (tr : list effect) : nat :=
  length (List.filter (is_fanout_of i) tr).

Definition is_pass (e : effect) : bool :=
  match e with
  | CallCheckAlarms _ => true
  | _ => false
  end.

(** How many evaluation passes were started. *)
Definition pass_count (tr : list effect) : nat :=
  length (List.filter is_pass tr).

(** [has_fired]: the test of line 182, negated. *)
Definition has_fired (st : gmap string string) (alarm_id : string) : bool :=
  negb (js_not (st !! triggeredKey alarm_id)).

(** A trace entry that records a call rather than a delivery. *)
Definition is_call (e : effect) : bool :=
  match e with
  | CallCheckAlarms _ | CallTriggerAlarm _ => true
  | _ => false
  end.

(** Some alarm of [l] with identifier [i] has its window open at [now]. *)
Definition due (now : Z) (i : string) (l : list alarm) : bool :=
  existsb (fun a => String.eqb i (Alarm.id a) && in_firing_window now a) l.

(** The store [st'] differs from [st] at most by markers: a key that
    changed now holds ['true'], is the marker key of an alarm of [l] whose
    window is open at [now], and held nothing before (or the empty string,
    which the test of line 182 does not tell from nothing). *)
Definition only_marks (now : Z) (l : list alarm) (st st' : gmap string string) : Prop :=
  forall k : string,
    st' !! k = st !! k \/
    (st' !! k = Some "true" /\
     (st !! k = None \/ st !! k = Some "") /\
     exists a, a ∈ l /\ k = triggeredKey (Alarm.id a) /\ in_firing_window now a = true).

(** The timer table holds at most the interval the ref points to. *)
Definition timer_invariant (s : engine) : Prop :=
  (0 < next_handle s)%nat /\
  (intervals s = ∅ \/
   exists h l, (0 < h)%nat /\ alarmCheckIntervalRef s = Some h /\
               intervals s = {[ h := l ]}).

(** ** Sample data: the scenarios of the specification

    An event starting at 10:00:00 UTC on 2 November 2026 with a lead time of
    15 minutes (trigger instant 09:45:00), a second alarm on the same event,
    and an alarm whose lead time reaches beyond the range of [Date]. *)

Definition t_10_00_00 : Z := 1793613600000.
Definition t_09_45_00 : Z := 1793612700000.
Definition t_09_44_59 : Z := 1793612699000.
Definition t_09_45_05 : Z := 1793612705000.
Definition t_09_45_15 : Z := 1793612715000.

Definition standup : alarm :=
  Alarm.mk "a1" "e1" "Standup" (Some t_10_00_00) 15.
Definition review : alarm :=
  Alarm.mk "a2" "e1" "Review" (Some t_10_00_00) 30.
Definition far_lead : alarm :=
  Alarm.mk "a3" "e3" "Far" (Some 1800000000000) 200000000000.
Definition zero_lead : alarm :=
  Alarm.mk "a4" "e1" "Zero" (Some t_10_00_00) 0.

Definition all_fine : env :=
  mkEnv (fun _ => AudioPlays) (fun _ => ToastShown)
        (fun _ => NotificationShown) (fun _ => true).
Definition notification_throws : env :=
  mkEnv (fun _ => AudioPlays) (fun _ => ToastShown)
        (fun _ => NotificationThrows) (fun _ => true).
Definition toast_throws : env :=
  mkEnv (fun _ => AudioPlays) (fun _ => ToastThrows)
        (fun _ => NotificationShown) (fun _ => true).
(** [setItem] throws for the marker of alarm [a1] only. *)
Definition storage_rejects_a1 : env :=
  mkEnv (fun _ => AudioPlays) (fun _ => ToastShown)
        (fun _ => NotificationShown)
        (fun k => negb (String.eqb k "alarm_triggered_a1")).

Definition empty_world : world := mkWorld ∅ [].

(** A sequence of evaluation passes over one durable store: each pass has
    its own clock value, surroundings and alarm list (a reload of the page
    resets everything but the store). *)
Definition passes (ps : list (Z * env * list alarm)) (w : world) : world :=
  fold_left (fun w p => fst (checkAlarms p.1.1 p.1.2 p.2 w)) ps w.

(** Surroundings in which nothing throws. *)
Definition quiet (E : env) : Prop :=
  (forall a, audio E a <> AudioThrows) /\
  (forall a, toast E a = ToastShown) /\
  (forall a, notification E a <> NotificationThrows) /\
  (forall k, setItem_stores E k = true).

(** ** The rest of the component: session, loading, logout

    The remaining state of [App] (lines 16-21) and the handlers that change
    it.  A request to the backend is issued by one event and answered by a
    later one; what the backend answers is an input.  The calls of
    [toast.success], [toast.error] and [console.error] made by these
    handlers, and the requests they send, are recorded in order.

    [mounted] tells whether React still holds the component.  No error
    boundary surrounds [App]: when the body of an effect throws, React
    unmounts the component.  Its state and its ref are then gone, a later
    call of a state setter does nothing and no effect runs again, while the
    browser keeps the intervals, the store and the requests in flight, whose
    continuations still run. *)

Module CalendarEvent.
Record t : Type := mk {
  id : string;
  title : string;
  start : string;
  location : option string
}.
End CalendarEvent.

Inductive request : Type :=
  | GetAuthStatus (userEmail : string)
  | GetCalendarEvents (email : string)
  | GetAlarms (email : string)
  | DeleteAlarm (alarmId email : string).

Inductive notice : Type :=
  | ToastSuccess (message : string)
  | ToastError (message : string)
  | ConsoleErrorLog (label : string).

Record App : Type := mkApp {
  email : string;
  events : list CalendarEvent.t;
  loading : bool;
  monitor : engine;
  awaiting_auth : option string;
  requests : list request;
  notices : list notice;
  mounted : bool
}.

(** A string used as a condition: the empty string is falsy. *)
Definition js_truthy (s : string) : bool :=
  match s with
  | EmptyString => false
  | String _ _ => true
  end.

(** [getAlarmForEvent] (lines 152-154):
    [alarms.find(alarm => alarm.event_id === eventId)] *)
Definition getAlarmForEvent (alarms : list alarm) (eventId : string) : option alarm :=
  List.find (fun alarm => String.eqb (Alarm.event_id alarm) eventId) alarms.

(** What an event card offers (lines 348-407): the alarm of the event with
    a delete button for it, or the input to set one. *)
Inductive card : Type :=
  | AlarmActive (existingAlarm : alarm)
  | AlarmSetup.

Definition eventCard (alarms : list alarm) (ev : CalendarEvent.t) : card :=
  match getAlarmForEvent alarms (CalendarEvent.id ev) with
  | Some existingAlarm => AlarmActive existingAlarm
  | None => AlarmSetup
  end.

(** A change of the store made outside an evaluation pass. *)
Definition on_storage (f : gmap string string -> gmap string string) (s : engine) : engine :=
  {| alarms := alarms s; isAuthenticated := isAuthenticated s;
     alarmCheckIntervalRef := alarmCheckIntervalRef s;
     intervals := intervals s; next_handle := next_handle s;
     outside := {| localStorage := f (localStorage (outside s));
                   trace := trace (outside s) |} |}.

(** [localStorage.removeItem(k)] *)
Definition removeItem (k : string) (s : engine) : engine := on_storage (delete k) s.

(** A render in which [alarms] or [isAuthenticated] changed: React calls
    the cleanup that the previous run of the monitoring effect returned and
    runs the effect again.  [update] is the resulting state and
    [update_completion] tells whether the body of the effect returned or
    threw.  A mounted component has a cleanup to call: had the previous run
    thrown, the component would have been unmounted. *)
Definition update (l : list alarm) (auth : bool) (now : Z) (E : env) (s : engine) : engine :=
  run s [Cleanup; Commit l auth now E].

Definition update_completion (l : list alarm) (auth : bool) (now : Z) (E : env) (s : engine)
  : completion unit :=
  snd (monitoringEffect now E (render l auth (monitoringCleanup s))).

(** React unmounts the component: its state and its ref are gone.  The
    intervals of the browser, the store, the trace, and the requests in
    flight stay. *)
Definition unmounted (a : App) : App :=
  {| email := ""; events := []; loading := false;
     monitor :=
       {| alarms := []; isAuthenticated := false; alarmCheckIntervalRef := None;
          intervals := intervals (monitor a);
          next_handle := next_handle (monitor a);
          outside := outside (monitor a) |};
     awaiting_auth := awaiting_auth a;
     requests := requests a; notices := notices a;
     mounted := false |}.

(** The end of a commit: when the body of an effect has thrown, the
    component is unmounted. *)
Definition effects_done (c : completion unit) (a : App) : App :=
  match c with
  | Normal _ => a
  | Throw _ => unmounted a
  end.

(** [loadCalendarEvents] (lines 95-106) up to its request, and [loadAlarms]
    (lines 108-115) up to its request. *)
Definition loadCalendarEvents (a : App) : App :=
  {| email := email a; events := events a; loading := true; monitor := monitor a;
     awaiting_auth := awaiting_auth a;
     requests := requests a ++ [GetCalendarEvents (email a)];
     notices := notices a; mounted := mounted a |}.

Definition loadAlarms (a : App) : App :=
  {| email := email a; events := events a; loading := loading a; monitor := monitor a;
     awaiting_auth := awaiting_auth a;
     requests := requests a ++ [GetAlarms (email a)];
     notices := notices a; mounted := mounted a |}.

(** The effect of lines 49-54, run after a render in which
    [isAuthenticated] or [email] changed.  It is declared before the
    monitoring effect and so runs before it in a commit. *)
Definition loadEffect (a : App) : App :=
  if isAuthenticated (monitor a) && js_truthy (email a)
  then loadAlarms (loadCalendarEvents a)
  else a.

(** The first render: [email] is empty, nothing is loaded, and the load and
    monitoring effects find their guards false. *)
Definition firstRender (now : Z) (E : env) (w : world) : App :=
  loadEffect
    {| email := ""; events := []; loading := false;
       monitor := fst (monitoringEffect now E (initial w));
       awaiting_auth := None; requests := []; notices := [];
       mounted := true |}.

(** The effect of lines 26-46, run once after the first render, with the
    values of [params.get('email')] and [params.get('auth')], followed by
    the render that its state updates cause.  When [setItem] throws the
    effect ends there and the component is unmounted.  The clean-up of the
    URL (line 37) touches nothing of the state kept here. *)
Definition mount (emailParam authSuccess : option string) (now : Z) (E : env) (w : world)
  : App * completion unit :=
  let a := firstRender now E w in
  match emailParam, authSuccess with
  | Some (String c e), Some "success" =>
      let emailParam := String c e in
      match setItem E "userEmail" emailParam (outside (monitor a)) with
      | (w', Normal _) =>
          let m := on_storage (fun _ => localStorage w') (monitor a) in
          (effects_done (update_completion (alarms (monitor a)) true now E m)
             (loadEffect
                {| email := emailParam; events := events a; loading := loading a;
                   monitor := update (alarms (monitor a)) true now E m;
                   awaiting_auth := awaiting_auth a; requests := requests a;
                   notices := notices a ++
                     [ToastSuccess "Successfully connected to Google Calendar!"];
                   mounted := true |}),
           Normal tt)
      | (_, Throw x) => (unmounted a, Throw x)
      end
  | _, _ =>
      (* Check localStorage *)
      match localStorage (outside (monitor a)) !! "userEmail" with
      | Some (String c e) =>
          let savedEmail := String c e in
          (loadEffect
             {| email := savedEmail; events := events a; loading := loading a;
                monitor := monitor a;
                awaiting_auth := Some savedEmail;
                requests := requests a ++ [GetAuthStatus savedEmail];
                notices := notices a; mounted := true |},
           Normal tt)
      | _ => (a, Normal tt)
      end
  end.

(** The answers of the backend to [checkAuthStatus]:
    [response.data.authenticated] is truthy, it is falsy, or the request
    fails. *)
Inductive auth_reply : Type := AuthConfirmed | AuthDenied | AuthRequestFailed.

(** [checkAuthStatus] (lines 69-81) from the point where the request
    returns.  It runs once for the call that is in flight.
    [setIsAuthenticated] does nothing on an unmounted component, and
    nothing when the value is already [true]; [removeItem] and
    [console.error] act in any case. *)
Definition checkAuthStatus_reply (r : auth_reply) (now : Z) (E : env) (a : App) : App :=
  match awaiting_auth a with
  | None => a
  | Some _ =>
      match r with
      | AuthConfirmed =>
          if mounted a && negb (isAuthenticated (monitor a))
          then
            effects_done (update_completion (alarms (monitor a)) true now E (monitor a))
              (loadEffect
                 {| email := email a; events := events a; loading := loading a;
                    monitor := update (alarms (monitor a)) true now E (monitor a);
                    awaiting_auth := None;
                    requests := requests a; notices := notices a;
                    mounted := mounted a |})
          else
            {| email := email a; events := events a; loading := loading a;
               monitor := monitor a; awaiting_auth := None;
               requests := requests a; notices := notices a;
               mounted := mounted a |}
      | AuthDenied =>
          {| email := email a; events := events a; loading := loading a;
             monitor := removeItem "userEmail" (monitor a); awaiting_auth := None;
             requests := requests a; notices := notices a;
             mounted := mounted a |}
      | AuthRequestFailed =>
          {| email := email a; events := events a; loading := loading a;
             monitor := removeItem "userEmail" (monitor a); awaiting_auth := None;
             requests := requests a;
             notices := notices a ++ [ConsoleErrorLog "Error checking auth status:"];
             mounted := mounted a |}
      end
  end.

(** [loadCalendarEvents] from the point where the request returns:
    [setEvents] and [setLoading] do nothing on an unmounted component, the
    error is reported in any case. *)
Definition loadCalendarEvents_reply (r : option (list CalendarEvent.t)) (a : App) : App :=
  match r with
  | Some evs =>
      {| email := email a;
         events := if mounted a then evs else events a;
         loading := if mounted a then false else loading a;
         monitor := monitor a;
         awaiting_auth := awaiting_auth a; requests := requests a;
         notices := notices a; mounted := mounted a |}
  | None =>
      {| email := email a; events := events a;
         loading := if mounted a then false else loading a;
         monitor := monitor a;
         awaiting_auth := awaiting_auth a; requests := requests a;
         notices := notices a ++
           [ConsoleErrorLog "Error loading events:";
            ToastError "Failed to load calendar events"];
         mounted := mounted a |}
  end.

(** [loadAlarms] from the point where the request returns: [setAlarms]
    with the answer, which does nothing on an unmounted component, or a
    logged error. *)
Definition loadAlarms_reply (r : option (list alarm)) (now : Z) (E : env) (a : App) : App :=
  match r with
  | Some l =>
      if mounted a then
        effects_done (update_completion l (isAuthenticated (monitor a)) now E (monitor a))
          {| email := email a; events := events a; loading := loading a;
             monitor := update l (isAuthenticated (monitor a)) now E (monitor a);
             awaiting_auth := awaiting_auth a; requests := requests a;
             notices := notices a; mounted := mounted a |}
      else a
  | None =>
      {| email := email a; events := events a; loading := loading a;
         monitor := monitor a;
         awaiting_auth := awaiting_auth a; requests := requests a;
         notices := notices a ++ [ConsoleErrorLog "Error loading alarms:"];
         mounted := mounted a |}
  end.

(** [handleDeleteAlarm] (lines 141-150) up to its request, and from the
    point where the request returns; the [loadAlarms] it then calls is the
    one of the render of the click, with that render's [email].  Neither
    part sets any state. *)
Definition handleDeleteAlarm (alarmId : string) (a : App) : App :=
  {| email := email a; events := events a; loading := loading a; monitor := monitor a;
     awaiting_auth := awaiting_auth a;
     requests := requests a ++ [DeleteAlarm alarmId (email a)];
     notices := notices a; mounted := mounted a |}.

Definition handleDeleteAlarm_reply (ok : bool) (email_then : string) (a : App) : App :=
  if ok then
    {| email := email a; events := events a; loading := loading a; monitor := monitor a;
       awaiting_auth := awaiting_auth a;
       requests := requests a ++ [GetAlarms email_then];
       notices := notices a ++ [ToastSuccess "Alarm deleted"];
       mounted := mounted a |}
  else
    {| email := email a; events := events a; loading := loading a; monitor := monitor a;
       awaiting_auth := awaiting_auth a; requests := requests a;
       notices := notices a ++
         [ConsoleErrorLog "Error deleting alarm:"; ToastError "Failed to delete alarm"];
       mounted := mounted a |}.

(** [handleLogout] (lines 235-242), followed by the render that its state
    updates cause. *)
Definition handleLogout (now : Z) (E : env) (a : App) : App :=
  let m := removeItem "userEmail" (monitor a) in
  effects_done (update_completion [] false now E m)
    (loadEffect
       {| email := ""; events := []; loading := loading a;
          monitor := update [] false now E m;
          awaiting_auth := awaiting_auth a; requests := requests a;
          notices := notices a ++ [ToastSuccess "Logged out successfully"];
          mounted := mounted a |}).

(** What can happen to the page once the component has been mounted.  The
    buttons exist while the component is mounted: the logout button and the
    event cards on the dashboard, which is rendered when [isAuthenticated]
    holds (line 244); the cards, one for each element of [events], when
    [loading] is false (line 330); and a card has a delete button when it
    shows an alarm.  Answers of the backend and ticks of a timer arrive
    whether or not the component is still mounted. *)
Inductive app_event : Type :=
  | AuthStatusReply (r : auth_reply) (now : Z) (E : env)
  | EventsReply (r : option (list CalendarEvent.t))
  | AlarmsReply (r : option (list alarm)) (now : Z) (E : env)
  | ClickDelete (card_index : nat)
  | DeleteReply (ok : bool) (email_then : string)
  | ClickLogout (now : Z) (E : env)
  | TimerTick (h : nat) (now : Z) (E : env).

Definition app_step (a : App) (ev : app_event) : App :=
  match ev with
  | AuthStatusReply r now E => checkAuthStatus_reply r now E a
  | EventsReply r => loadCalendarEvents_reply r a
  | AlarmsReply r now E => loadAlarms_reply r now E a
  | ClickDelete card_index =>
      if mounted a && isAuthenticated (monitor a) && negb (loading a) then
        match events a !! card_index with
        | Some ev =>
            match eventCard (alarms (monitor a)) ev with
            | AlarmActive existingAlarm => handleDeleteAlarm (Alarm.id existingAlarm) a
            | AlarmSetup => a
            end
        | None => a
        end
      else a
  | DeleteReply ok email_then => handleDeleteAlarm_reply ok email_then a
  | ClickLogout now E =>
      if mounted a && isAuthenticated (monitor a) then handleLogout now E a else a
  | TimerTick h now E =>
      {| email := email a; events := events a; loading := loading a;
         monitor := step (monitor a) (TimerFires h now E);
         awaiting_auth := awaiting_auth a; requests := requests a;
         notices := notices a; mounted := mounted a |}
  end.

Definition app_run (a : App) (evs : list app_event) : App := fold_left app_step evs a.

(** ** Invariants of the component *)

(** While a timer is active it belongs to an authenticated component with a
    non-empty list and evaluates that list. *)
Definition armed_for_current_list (s : engine) : Prop :=
  if isAuthenticated s && (0 <? length (alarms s))%nat
  then exists h, alarmCheckIntervalRef s = Some h /\ intervals s = {[ h := alarms s ]}
  else intervals s = ∅.

(** The signed-in address is the saved one; while the status request is in
    flight the component is not authenticated and shows the saved address. *)
Definition session_invariant (a : App) : Prop :=
  (isAuthenticated (monitor a) = true ->
   js_truthy (email a) = true /\
   localStorage (outside (monitor a)) !! "userEmail" = Some (email a)) /\
  (forall e, awaiting_auth a = Some e ->
   isAuthenticated (monitor a) = false /\ email a = e /\ js_truthy e = true /\
   localStorage (outside (monitor a)) !! "userEmail" = Some e).

(** What holds of every state the page can reach: only a mounted component
    is authenticated, and its timer is the one of its current list. *)
Definition app_invariant (a : App) : Prop :=
  (if mounted a
   then timer_invariant (monitor a) /\ armed_for_current_list (monitor a)
   else isAuthenticated (monitor a) = false) /\
  session_invariant a.

(** Surroundings of a pass in which the fan-out for [a] or the write of its
    marker throws. *)
Definition delivery_fails (E : env) (a : alarm) : Prop :=
  audio E a = AudioThrows \/ toast E a = ToastThrows \/
  notification E a = NotificationThrows \/
  setItem_stores E (triggeredKey (Alarm.id a)) = false.

(** ** Facts about dates and the trigger condition *)

Lemma TimeClip_Some t u : JsDate.TimeClip t = Some u -> u = t /\ Z.abs t <= JsDate.MAX_TIME.
Proof.
  unfold JsDate.TimeClip. destruct (Z.leb_spec (Z.abs t) JsDate.MAX_TIME); [|discriminate].
  intros [= <-]. split; [reflexivity | assumption].
Qed.

Lemma TimeClip_in_range t : Z.abs t <= JsDate.MAX_TIME -> JsDate.TimeClip t = Some t.
Proof.
  intros H. unfold JsDate.TimeClip.
  destruct (Z.leb_spec (Z.abs t) JsDate.MAX_TIME); [reflexivity | lia].
Qed.

Lemma alarmTime_of_eventTime a e :
  eventTime a = Some e ->
  alarmTime a = JsDate.TimeClip (trigger_instant e (Alarm.alarm_minutes_before a)).
Proof. intros He. unfold alarmTime. rewrite He. reflexivity. Qed.

Lemma alarmTime_invalid_start a : eventTime a = None -> alarmTime a = None.
Proof. intros He. unfold alarmTime. rewrite He. reflexivity. Qed.

(** When the window is open both dates are valid and [now] lies between
    them. *)
Lemma in_firing_window_true now a :
  in_firing_window now a = true ->
  exists e, eventTime a = Some e /\
            alarmTime a = Some (trigger_instant e (Alarm.alarm_minutes_before a)) /\
            trigger_instant e (Alarm.alarm_minutes_before a) <= now < e.
Proof.
  unfold in_firing_window. intros [Hge Hlt]%andb_true_iff.
  destruct (eventTime a) as [e|] eqn:He; [|discriminate].
  exists e. split; [reflexivity|].
  rewrite (alarmTime_of_eventTime a e He) in Hge |- *.
  destruct (JsDate.TimeClip _) as [u|] eqn:Hu; [|discriminate].
  apply TimeClip_Some in Hu as [-> _].
  cbn in Hge, Hlt. split; [reflexivity | lia].
Qed.

(** With a representable trigger instant the code's condition is the
    half-open interval of the specification. *)
Lemma in_firing_window_spec now a e :
  eventTime a = Some e ->
  Z.abs (trigger_instant e (Alarm.alarm_minutes_before a)) <= JsDate.MAX_TIME ->
  in_firing_window now a = true <->
  trigger_instant e (Alarm.alarm_minutes_before a) <= now < e.
Proof.
  intros He Hr. unfold in_firing_window.
  rewrite (alarmTime_of_eventTime a e He), He, (TimeClip_in_range _ Hr). cbn.
  rewrite andb_true_iff, Z.leb_le, Z.ltb_lt. reflexivity.
Qed.

(** The window is empty when the lead time is not positive. *)
Lemma in_firing_window_nonpositive_lead now a :
  Alarm.alarm_minutes_before a <= 0 -> in_firing_window now a = false.
Proof.
  intros Hl. destruct (in_firing_window now a) eqn:Hw; [|reflexivity].
  apply in_firing_window_true in Hw as (e & _ & _ & Hr).
  unfold trigger_instant in Hr. lia.
Qed.

(** The window is empty when the start instant is not a valid date. *)
Lemma in_firing_window_invalid_start now a :
  eventTime a = None -> in_firing_window now a = false.
Proof.
  intros He. unfold in_firing_window. rewrite He.
  cbn. apply andb_false_r.
Qed.

(** ** Counting in traces *)

Lemma fanout_count_app i t1 t2 :
  fanout_count i (t1 ++ t2) = (fanout_count i t1 + fanout_count i t2)%nat.
Proof. unfold fanout_count. rewrite List.filter_app, length_app. reflexivity. Qed.

Lemma pass_count_app t1 t2 :
  pass_count (t1 ++ t2) = (pass_count t1 + pass_count t2)%nat.
Proof. unfold pass_count. rewrite List.filter_app, length_app. reflexivity. Qed.

Lemma fanout_count_no_call i t :
  Forall (fun e => is_call e = false) t -> fanout_count i t = 0%nat.
Proof.
  unfold fanout_count. induction 1 as [|e t He _ IH]; [reflexivity|].
  cbn. destruct e; cbn in He; try discriminate; exact IH.
Qed.

Lemma pass_count_no_call t :
  Forall (fun e => is_call e = false) t -> pass_count t = 0%nat.
Proof.
  unfold pass_count. induction 1 as [|e t He _ IH]; [reflexivity|].
  cbn. destruct e; cbn in He; try discriminate; exact IH.
Qed.

Lemma fanout_count_trigger i j t :
  Forall (fun e => is_call e = false) t ->
  fanout_count i (CallTriggerAlarm j :: t) = if String.eqb i j then 1%nat else 0%nat.
Proof.
  intros Ht. change (CallTriggerAlarm j :: t) with ([CallTriggerAlarm j] ++ t).
  rewrite fanout_count_app, (fanout_count_no_call i t Ht).
  unfold fanout_count. cbn. destruct (String.eqb i j); reflexivity.
Qed.

(** ** Markers *)

Lemma triggeredKey_inj i j : triggeredKey i = triggeredKey j -> i = j.
Proof.
  unfold triggeredKey. intros H.
  cbv [String.append] in H. congruence.
Qed.

Lemma has_fired_insert st i j :
  has_fired (<[triggeredKey j := "true"]> st) i = String.eqb i j || has_fired st i.
Proof.
  unfold has_fired. destruct (String.eqb_spec i j) as [->|Hne].
  - rewrite lookup_insert_eq. reflexivity.
  - rewrite lookup_insert_ne; [reflexivity|].
    intros H%triggeredKey_inj. congruence.
Qed.

Lemma js_not_true v : js_not v = true -> v = None \/ v = Some "".
Proof. destruct v as [[|c s]|]; cbn; intros H; auto; discriminate. Qed.

Lemma only_marks_refl now l st : only_marks now l st st.
Proof. intros k. left. reflexivity. Qed.

Lemma only_marks_has_fired now l st st' i :
  only_marks now l st st' -> has_fired st i = true -> has_fired st' i = true.
Proof.
  intros Hm Hi. unfold has_fired in *.
  destruct (Hm (triggeredKey i)) as [-> | [-> _]]; [exact Hi | reflexivity].
Qed.

Lemma only_marks_weaken now l l' st st' :
  (forall a, a ∈ l -> a ∈ l') -> only_marks now l st st' -> only_marks now l' st st'.
Proof.
  intros Hsub Hm k. destruct (Hm k) as [H | (H1 & H2 & a & Ha & Hk & Hw)]; [left; exact H|].
  right. split; [exact H1|]. split; [exact H2|]. exists a. auto.
Qed.

Lemma only_marks_trans now l st1 st2 st3 :
  only_marks now l st1 st2 -> only_marks now l st2 st3 -> only_marks now l st1 st3.
Proof.
  intros H12 H23 k.
  destruct (H23 k) as [E23 | (E3 & U2 & a & Ha & Hk & Hw)].
  - rewrite E23. apply H12.
  - destruct (H12 k) as [E12 | (E2 & _)].
    + right. rewrite <- E12. split; [exact E3|]. split; [exact U2|]. exists a. auto.
    + rewrite E2 in U2. destruct U2 as [?|?]; discriminate.
Qed.

(** ** What one call of [triggerAlarm] and one round of the loop do *)

Lemma bind_Normal {A B} (m : M A) (k : A -> M B) w w1 a :
  m w = (w1, Normal a) -> bind m k w = k a w1.
Proof. intros H. unfold bind. rewrite H. reflexivity. Qed.

Lemma bind_Throw {A B} (m : M A) (k : A -> M B) w w1 e :
  m w = (w1, Throw e) -> bind m k w = (w1, Throw e).
Proof. intros H. unfold bind. rewrite H. reflexivity. Qed.

(** The fan-out never touches the store, and its trace is the call entry
    followed by deliveries. *)
Lemma triggerAlarm_frame E a w w' c :
  triggerAlarm E a w = (w', c) ->
  localStorage w' = localStorage w /\
  exists t, trace w' = trace w ++ CallTriggerAlarm (Alarm.id a) :: t /\
            Forall (fun e => is_call e = false) t.
Proof.
  unfold triggerAlarm, bind, emit, ret, throw.
  destruct (audio E a), (toast E a), (notification E a); cbn;
    intros [= <- <-]; cbn; (split; [reflexivity|]);
    eexists; (split; [rewrite <- ?app_assoc; cbn; reflexivity | repeat constructor]).
Qed.

Lemma triggerAlarm_quiet E a w :
  quiet E -> exists w', triggerAlarm E a w = (w', Normal tt).
Proof.
  intros (Ha & Ht & Hn & _). specialize (Ha a). specialize (Ht a). specialize (Hn a).
  unfold triggerAlarm, bind, emit, ret, throw. rewrite Ht.
  destruct (audio E a), (notification E a); cbn; try congruence; eexists; reflexivity.
Qed.

Lemma checkAlarm_skip now E a w :
  in_firing_window now a = false \/ has_fired (localStorage w) (Alarm.id a) = true ->
  checkAlarm now E a w = (w, Normal tt).
Proof.
  unfold checkAlarm, has_fired. intros [Hw | Hf].
  - rewrite Hw. reflexivity.
  - destruct (in_firing_window now a); [|reflexivity].
    unfold bind, getItem. apply negb_true_iff in Hf. rewrite Hf. reflexivity.
Qed.

Lemma checkAlarm_fire now E a w :
  in_firing_window now a = true ->
  has_fired (localStorage w) (Alarm.id a) = false ->
  checkAlarm now E a w =
  bind (triggerAlarm E a) (fun _ => setItem E (triggeredKey (Alarm.id a)) "true") w.
Proof.
  unfold checkAlarm, has_fired. intros -> Hf. apply negb_false_iff in Hf.
  unfold bind at 1. unfold getItem. rewrite Hf. reflexivity.
Qed.

(** One round of the loop: the store gains at most the marker of [a], and
    the trace gains one fan-out call exactly when the window is open and the
    marker unset. *)
Lemma checkAlarm_frame now E a w w' c :
  checkAlarm now E a w = (w', c) ->
  only_marks now [a] (localStorage w) (localStorage w') /\
  exists t, trace w' = trace w ++ t /\ pass_count t = 0%nat /\
    forall i, fanout_count i t =
      if in_firing_window now a && negb (has_fired (localStorage w) (Alarm.id a))
         && String.eqb i (Alarm.id a)
      then 1%nat else 0%nat.
Proof.
  destruct (in_firing_window now a) eqn:Hw;
    [destruct (has_fired (localStorage w) (Alarm.id a)) eqn:Hf|].
  - rewrite checkAlarm_skip by auto. intros [= <- <-].
    split; [apply only_marks_refl|]. exists []. rewrite app_nil_r. auto.
  - rewrite checkAlarm_fire by assumption.
    destruct (triggerAlarm E a w) as [w1 c1] eqn:Ht.
    destruct (triggerAlarm_frame _ _ _ _ _ Ht) as (Hst & t & Htr & Hq).
    assert (Hcount : forall i, fanout_count i (CallTriggerAlarm (Alarm.id a) :: t) =
                               if true && negb false && String.eqb i (Alarm.id a)
                               then 1%nat else 0%nat).
    { intros i. rewrite fanout_count_trigger by assumption. reflexivity. }
    assert (Hpass : pass_count (CallTriggerAlarm (Alarm.id a) :: t) = 0%nat).
    { change (CallTriggerAlarm (Alarm.id a) :: t) with ([CallTriggerAlarm (Alarm.id a)] ++ t).
      rewrite pass_count_app, (pass_count_no_call t Hq). reflexivity. }
    destruct c1 as [[]|e].
    + rewrite (bind_Normal _ _ _ _ _ Ht). unfold setItem.
      destruct (setItem_stores E _); intros [= <- <-]; cbn.
      * split; [|eauto].
        intros k. rewrite Hst.
        destruct (decide (k = triggeredKey (Alarm.id a))) as [->|Hne].
        -- right. rewrite lookup_insert_eq. split; [reflexivity|].
           split.
           ++ apply js_not_true. unfold has_fired in Hf.
              apply negb_false_iff in Hf. exact Hf.
           ++ exists a. split; [apply list_elem_of_here|]. auto.
        -- left. rewrite lookup_insert_ne by congruence. reflexivity.
      * rewrite Hst. split; [apply only_marks_refl | eauto].
    + rewrite (bind_Throw _ _ _ _ _ Ht). intros [= <- <-].
      rewrite Hst. split; [apply only_marks_refl | eauto].
  - rewrite checkAlarm_skip by auto. intros [= <- <-].
    split; [apply only_marks_refl|]. exists []. rewrite app_nil_r. auto.
Qed.

(** The three ways a round of the loop can end: the alarm is skipped; the
    fan-out ran and the marker was written; or the fan-out was called and an
    error ended the round before the marker was written. *)
Lemma checkAlarm_outcome now E a w w' c :
  checkAlarm now E a w = (w', c) ->
  (w' = w /\ c = Normal tt) \/
  (in_firing_window now a = true /\ has_fired (localStorage w) (Alarm.id a) = false /\
   exists t, trace w' = trace w ++ CallTriggerAlarm (Alarm.id a) :: t /\
             Forall (fun e => is_call e = false) t /\
             ((c = Normal tt /\
               localStorage w' = <[triggeredKey (Alarm.id a) := "true"]> (localStorage w)) \/
              (exists e, c = Throw e) /\ localStorage w' = localStorage w)).
Proof.
  destruct (in_firing_window now a) eqn:Hw;
    [destruct (has_fired (localStorage w) (Alarm.id a)) eqn:Hf|].
  - rewrite checkAlarm_skip by auto. intros [= <- <-]. left. auto.
  - rewrite checkAlarm_fire by assumption. intros H. right.
    split; [reflexivity|]. split; [reflexivity|].
    destruct (triggerAlarm E a w) as [w1 c1] eqn:Ht.
    destruct (triggerAlarm_frame _ _ _ _ _ Ht) as (Hst & t & Htr & Hq).
    exists t. destruct c1 as [[]|e].
    + rewrite (bind_Normal _ _ _ _ _ Ht) in H. unfold setItem in H.
      destruct (setItem_stores E _); injection H as <- <-; cbn;
        (split; [exact Htr|]); (split; [exact Hq|]).
      * left. rewrite Hst. auto.
      * right. split; [eauto | exact Hst].
    + rewrite (bind_Throw _ _ _ _ _ Ht) in H. injection H as <- <-.
      split; [exact Htr|]. split; [exact Hq|]. right. split; [eauto | exact Hst].
  - rewrite checkAlarm_skip by auto. intros [= <- <-]. left. auto.
Qed.

(** The whole loop. *)
Lemma forEach_frame now E l : forall w w' c,
  forEach (checkAlarm now E) l w = (w', c) ->
  only_marks now l (localStorage w) (localStorage w') /\
  exists t, trace w' = trace w ++ t /\ pass_count t = 0%nat /\
    forall i, has_fired (localStorage w) i = true -> fanout_count i t = 0%nat.
Proof.
  induction l as [|a l IH]; intros w w' c; cbn [forEach].
  - intros [= <- <-]. split; [apply only_marks_refl|].
    exists []. rewrite app_nil_r. auto.
  - destruct (checkAlarm now E a w) as [w1 c1] eqn:Ha.
    destruct (checkAlarm_frame _ _ _ _ _ _ Ha) as (Hm1 & t1 & Ht1 & Hp1 & Hc1).
    assert (Hm1' : only_marks now (a :: l) (localStorage w) (localStorage w1)).
    { eapply only_marks_weaken; [|exact Hm1].
      intros b Hb. apply list_elem_of_singleton in Hb as ->. apply list_elem_of_here. }
    assert (Hz1 : forall i, has_fired (localStorage w) i = true -> fanout_count i t1 = 0%nat).
    { intros i Hi. rewrite Hc1. destruct (String.eqb_spec i (Alarm.id a)) as [->|_].
      - rewrite Hi. cbn. rewrite andb_false_r. reflexivity.
      - rewrite andb_false_r. reflexivity. }
    destruct c1 as [[]|e].
    + rewrite (bind_Normal _ _ _ _ _ Ha). intros Hl.
      destruct (IH _ _ _ Hl) as (Hm2 & t2 & Ht2 & Hp2 & Hc2).
      split.
      * eapply only_marks_trans; [exact Hm1'|].
        eapply only_marks_weaken; [|exact Hm2]. intros b Hb. apply list_elem_of_further, Hb.
      * exists (t1 ++ t2). rewrite Ht2, Ht1, <- app_assoc. split; [reflexivity|].
        rewrite pass_count_app, Hp1, Hp2. split; [reflexivity|].
        intros i Hi. rewrite fanout_count_app, (Hz1 i Hi), Hc2; [reflexivity|].
        eapply only_marks_has_fired; eassumption.
    + rewrite (bind_Throw _ _ _ _ _ Ha). intros [= <- <-].
      split; [exact Hm1'|]. exists t1. auto.
Qed.

(** A pass logs its own start and then runs the loop. *)
Lemma checkAlarms_unfold now E l w :
  checkAlarms now E l w =
  forEach (checkAlarm now E) l
    {| localStorage := localStorage w; trace := trace w ++ [CallCheckAlarms now] |}.
Proof. reflexivity. Qed.

Lemma checkAlarms_frame now E l w w' c :
  checkAlarms now E l w = (w', c) ->
  only_marks now l (localStorage w) (localStorage w') /\
  exists t, trace w' = trace w ++ CallCheckAlarms now :: t /\ pass_count t = 0%nat /\
    forall i, has_fired (localStorage w) i = true -> fanout_count i t = 0%nat.
Proof.
  unfold checkAlarms. unfold bind at 1. unfold emit. intros H.
  apply forEach_frame in H as (Hm & t & Ht & Hp & Hc). cbn in *.
  split; [exact Hm|]. exists t. rewrite Ht, <- app_assoc. auto.
Qed.

(** ** Passes in surroundings where nothing throws *)

Lemma checkAlarm_quiet now E a w w' c :
  quiet E ->
  checkAlarm now E a w = (w', c) ->
  c = Normal tt /\
  forall i, has_fired (localStorage w') i =
            has_fired (localStorage w) i || (String.eqb i (Alarm.id a) && in_firing_window now a).
Proof.
  intros HE.
  destruct (in_firing_window now a) eqn:Hw;
    [destruct (has_fired (localStorage w) (Alarm.id a)) eqn:Hf|].
  - rewrite checkAlarm_skip by auto. intros [= <- <-]. split; [reflexivity|].
    intros i. destruct (String.eqb_spec i (Alarm.id a)) as [->|_].
    + rewrite Hf. reflexivity.
    + rewrite orb_false_r. reflexivity.
  - rewrite checkAlarm_fire by assumption.
    destruct (triggerAlarm_quiet E a w HE) as [w1 Ht].
    rewrite (bind_Normal _ _ _ _ _ Ht).
    destruct (triggerAlarm_frame _ _ _ _ _ Ht) as (Hst & _).
    unfold setItem. destruct HE as (_ & _ & _ & Hs). rewrite Hs.
    intros [= <- <-]. split; [reflexivity|]. cbn. intros i.
    rewrite Hst, has_fired_insert, andb_true_r. apply orb_comm.
  - rewrite checkAlarm_skip by auto. intros [= <- <-]. split; [reflexivity|].
    intros i. rewrite andb_false_r, orb_false_r. reflexivity.
Qed.

Lemma forEach_quiet now E l :
  quiet E -> forall w w' c,
  forEach (checkAlarm now E) l w = (w', c) ->
  c = Normal tt /\
  (forall i, has_fired (localStorage w') i = has_fired (localStorage w) i || due now i l) /\
  exists t, trace w' = trace w ++ t /\
    forall i, fanout_count i t =
              if negb (has_fired (localStorage w) i) && due now i l then 1%nat else 0%nat.
Proof.
  intros HE. induction l as [|a l IH]; intros w w' c; cbn [forEach].
  - intros [= <- <-]. split; [reflexivity|]. split.
    + intros i. cbn. rewrite orb_false_r. reflexivity.
    + exists []. rewrite app_nil_r. split; [reflexivity|].
      intros i. cbn. rewrite andb_false_r. reflexivity.
  - destruct (checkAlarm now E a w) as [w1 c1] eqn:Ha.
    destruct (checkAlarm_quiet _ _ _ _ _ _ HE Ha) as [-> Hf1].
    destruct (checkAlarm_frame _ _ _ _ _ _ Ha) as (_ & t1 & Ht1 & _ & Hc1).
    rewrite (bind_Normal _ _ _ _ _ Ha). intros Hl.
    destruct (IH _ _ _ Hl) as (-> & Hf2 & t2 & Ht2 & Hc2).
    split; [reflexivity|]. split.
    + intros i. rewrite Hf2, Hf1. cbn [due existsb]. rewrite orb_assoc. reflexivity.
    + exists (t1 ++ t2). rewrite Ht2, Ht1, <- app_assoc. split; [reflexivity|].
      intros i. rewrite fanout_count_app, Hc1, Hc2, Hf1. cbn [due existsb].
      fold (due now i l).
      destruct (String.eqb_spec i (Alarm.id a)) as [->|_].
      * destruct (in_firing_window now a), (has_fired (localStorage w) (Alarm.id a)),
          (due now (Alarm.id a) l); reflexivity.
      * rewrite !andb_false_r. cbn.
        destruct (has_fired (localStorage w) i), (due now i l); reflexivity.
Qed.

Lemma due_elem_of now a l :
  a ∈ l -> in_firing_window now a = true -> due now (Alarm.id a) l = true.
Proof.
  intros Ha Hw. unfold due. apply existsb_exists. exists a.
  split; [apply list_elem_of_In, Ha|]. rewrite String.eqb_refl, Hw. reflexivity.
Qed.

(** In quiet surroundings a pass over a list that holds an alarm with open
    window and unset marker calls the fan-out for it exactly once and
    records the marker. *)
Lemma checkAlarms_quiet_fires now E l a w :
  quiet E -> a ∈ l -> in_firing_window now a = true ->
  has_fired (localStorage w) (Alarm.id a) = false ->
  let w' := fst (checkAlarms now E l w) in
  has_fired (localStorage w') (Alarm.id a) = true /\
  fanout_count (Alarm.id a) (trace w') = S (fanout_count (Alarm.id a) (trace w)).
Proof.
  intros HE Ha Hw Hf. cbn zeta.
  destruct (checkAlarms now E l w) as [w' c] eqn:Hp. cbn [fst].
  unfold checkAlarms in Hp. unfold bind at 1 in Hp. unfold emit in Hp.
  apply (forEach_quiet now E l HE) in Hp as (_ & Hf' & t & Ht & Hc). cbn in *.
  split.
  - rewrite Hf', (due_elem_of now a l Ha Hw). apply orb_true_r.
  - rewrite Ht, !fanout_count_app, Hc, Hf, (due_elem_of now a l Ha Hw). cbn. lia.
Qed.

(** Whatever the surroundings: if a loop starts with the marker of [i]
    unset and ends with it set, the fan-out was called for [i] exactly once
    in between. *)
Lemma forEach_records_once now E l : forall w w' c i,
  forEach (checkAlarm now E) l w = (w', c) ->
  has_fired (localStorage w) i = false ->
  has_fired (localStorage w') i = true ->
  exists t, trace w' = trace w ++ t /\ fanout_count i t = 1%nat.
Proof.
  induction l as [|a l IH]; intros w w' c i; cbn [forEach].
  - intros [= <- <-] H0 H1. congruence.
  - intros Hl H0 H1.
    destruct (checkAlarm now E a w) as [w1 c1] eqn:Ha.
    destruct (checkAlarm_outcome _ _ _ _ _ _ Ha)
      as [[-> ->] | (Hw & Hf & t1 & Ht1 & Hq1 & [[-> Hst1] | [[e ->] Hst1]])].
    + rewrite (bind_Normal _ _ _ _ _ Ha) in Hl. eapply IH; eassumption.
    + rewrite (bind_Normal _ _ _ _ _ Ha) in Hl.
      pose proof (fanout_count_trigger i (Alarm.id a) t1 Hq1) as Hc1.
      assert (Hi1 : has_fired (localStorage w1) i = String.eqb i (Alarm.id a)).
      { rewrite Hst1, has_fired_insert, H0. apply orb_false_r. }
      destruct (String.eqb i (Alarm.id a)).
      * destruct (forEach_frame _ _ _ _ _ _ Hl) as (_ & t2 & Ht2 & _ & Hc2).
        exists ((CallTriggerAlarm (Alarm.id a) :: t1) ++ t2).
        rewrite Ht2, Ht1, <- app_assoc. split; [reflexivity|].
        rewrite fanout_count_app, Hc1, (Hc2 i Hi1). reflexivity.
      * destruct (IH _ _ _ i Hl Hi1 H1) as (t2 & Ht2 & Hc2).
        exists ((CallTriggerAlarm (Alarm.id a) :: t1) ++ t2).
        rewrite Ht2, Ht1, <- app_assoc. split; [reflexivity|].
        rewrite fanout_count_app, Hc1, Hc2. reflexivity.
    + rewrite (bind_Throw _ _ _ _ _ Ha) in Hl. injection Hl as <- <-.
      unfold has_fired in H0, H1. rewrite Hst1 in H1. congruence.
Qed.

Lemma checkAlarms_records_once now E l w i :
  has_fired (localStorage w) i = false ->
  has_fired (localStorage (fst (checkAlarms now E l w))) i = true ->
  fanout_count i (trace (fst (checkAlarms now E l w))) = S (fanout_count i (trace w)).
Proof.
  rewrite checkAlarms_unfold.
  destruct (forEach _ _ _) as [w' c] eqn:Hl. cbn [fst]. intros H0 H1.
  destruct (forEach_records_once _ _ _ _ _ _ i Hl H0 H1) as (t & -> & Hc). cbn [trace].
  rewrite !fanout_count_app, Hc. cbn. lia.
Qed.

(** ** Sequences of passes over one store *)

Lemma passes_cons now E l ps w :
  passes ((now, E, l) :: ps) w = passes ps (fst (checkAlarms now E l w)).
Proof. reflexivity. Qed.

Lemma checkAlarms_marked now E l w i :
  has_fired (localStorage w) i = true ->
  has_fired (localStorage (fst (checkAlarms now E l w))) i = true /\
  fanout_count i (trace (fst (checkAlarms now E l w))) = fanout_count i (trace w).
Proof.
  intros Hi. destruct (checkAlarms now E l w) as [w' c] eqn:Hp. cbn [fst].
  apply checkAlarms_frame in Hp as (Hm & t & Ht & _ & Hc). split.
  - eapply only_marks_has_fired; eassumption.
  - rewrite Ht. change (CallCheckAlarms now :: t) with ([CallCheckAlarms now] ++ t).
    rewrite !fanout_count_app, (Hc i Hi). cbn. lia.
Qed.

Lemma passes_marked ps : forall w i,
  has_fired (localStorage w) i = true ->
  has_fired (localStorage (passes ps w)) i = true /\
  fanout_count i (trace (passes ps w)) = fanout_count i (trace w).
Proof.
  induction ps as [|[[now E] l] ps IH]; intros w i Hi; [auto|].
  rewrite passes_cons.
  destruct (checkAlarms_marked now E l w i Hi) as [Hi1 Hc1].
  destruct (IH _ i Hi1) as [Hi2 Hc2]. split; [exact Hi2 | congruence].
Qed.

(** ** Steps of the engine *)

(** Whatever happens to the instance, the outside world is either left
    alone or sees one evaluation pass. *)
Lemma step_outside s ev :
  outside (step s ev) = outside s \/
  exists now E l, outside (step s ev) = fst (checkAlarms now E l (outside s)).
Proof.
  destruct ev as [l auth now E | | h now E]; cbn [step].
  - unfold monitoringEffect. destruct (_ && _); [|left; reflexivity].
    right. exists now, E, l. unfold startAlarmMonitoring, on_outside.
    destruct (checkAlarms _ _ _ _) as [w c] eqn:Hp. cbn.
    revert Hp. unfold clearCurrentInterval, render. cbn.
    destruct (alarmCheckIntervalRef s) as [[|h]|]; cbn; intros ->; reflexivity.
  - left. unfold monitoringCleanup, clearCurrentInterval.
    destruct (alarmCheckIntervalRef s) as [[|h]|]; reflexivity.
  - destruct (intervals s !! h) as [l|]; [|left; reflexivity].
    right. exists now, E, l. unfold on_outside.
    destruct (checkAlarms _ _ _ _) as [w c]. reflexivity.
Qed.

Lemma run_marked evs : forall s i,
  has_fired (localStorage (outside s)) i = true ->
  has_fired (localStorage (outside (run s evs))) i = true /\
  fanout_count i (trace (outside (run s evs))) = fanout_count i (trace (outside s)).
Proof.
  induction evs as [|ev evs IH]; intros s i Hi; [auto|].
  change (run s (ev :: evs)) with (run (step s ev) evs).
  assert (H1 : has_fired (localStorage (outside (step s ev))) i = true /\
               fanout_count i (trace (outside (step s ev))) = fanout_count i (trace (outside s))).
  { destruct (step_outside s ev) as [-> | (now & E & l & ->)]; [auto|].
    apply checkAlarms_marked, Hi. }
  destruct H1 as [Hi1 Hc1]. destruct (IH _ i Hi1) as [Hi2 Hc2].
  split; [exact Hi2 | congruence].
Qed.

(** ** The timer table *)

Lemma on_outside_timers m s :
  alarms (fst (on_outside m s)) = alarms s /\
  isAuthenticated (fst (on_outside m s)) = isAuthenticated s /\
  alarmCheckIntervalRef (fst (on_outside m s)) = alarmCheckIntervalRef s /\
  intervals (fst (on_outside m s)) = intervals s /\
  next_handle (fst (on_outside m s)) = next_handle s.
Proof. unfold on_outside. destruct (m (outside s)) as [w c]. cbn. auto. Qed.

Lemma timer_invariant_initial w : timer_invariant (initial w).
Proof. split; [cbn; lia | left; reflexivity]. Qed.

(** Under the invariant the guarded [clearInterval] leaves no interval. *)
Lemma clearCurrentInterval_empties s :
  timer_invariant s ->
  intervals (clearCurrentInterval s) = ∅ /\
  next_handle (clearCurrentInterval s) = next_handle s /\
  alarms (clearCurrentInterval s) = alarms s /\
  isAuthenticated (clearCurrentInterval s) = isAuthenticated s /\
  outside (clearCurrentInterval s) = outside s.
Proof.
  intros [_ [He | (h & l & Hh & Hr & Hi)]]; unfold clearCurrentInterval.
  - destruct (alarmCheckIntervalRef s) as [[|h]|]; cbn; rewrite ?He, ?delete_empty; auto.
  - rewrite Hr. destruct h as [|h]; [lia|]. cbn.
    rewrite Hi, delete_singleton_eq. auto.
Qed.

Lemma timer_invariant_cleanup s :
  timer_invariant s -> timer_invariant (monitoringCleanup s).
Proof.
  intros Hinv. destruct (clearCurrentInterval_empties s Hinv) as (He & Hn & _).
  unfold monitoringCleanup. split; [rewrite Hn; apply Hinv | left; exact He].
Qed.

Lemma timer_invariant_render l auth s :
  timer_invariant s -> timer_invariant (render l auth s).
Proof. intros Hinv. exact Hinv. Qed.

(** Re-arming: the old interval is gone and exactly the new one is active. *)
Lemma startAlarmMonitoring_timers now E s :
  timer_invariant s ->
  alarmCheckIntervalRef (fst (startAlarmMonitoring now E s)) = Some (next_handle s) /\
  intervals (fst (startAlarmMonitoring now E s)) = {[ next_handle s := alarms s ]} /\
  next_handle (fst (startAlarmMonitoring now E s)) = S (next_handle s).
Proof.
  intros Hinv. destruct (clearCurrentInterval_empties s Hinv) as (He & Hn & Ha & _).
  unfold startAlarmMonitoring.
  destruct (on_outside_timers
              (checkAlarms now E (alarms (setCheckInterval (clearCurrentInterval s))))
              (setCheckInterval (clearCurrentInterval s))) as (_ & _ & -> & -> & ->).
  cbn. rewrite He, Hn, Ha. auto.
Qed.

Lemma timer_invariant_start now E s :
  timer_invariant s -> timer_invariant (fst (startAlarmMonitoring now E s)).
Proof.
  intros Hinv. destruct (startAlarmMonitoring_timers now E s Hinv) as (Hr & Hi & Hn).
  split; [rewrite Hn; lia|].
  right. exists (next_handle s), (alarms s). split; [apply Hinv | auto].
Qed.

Lemma timer_invariant_step s ev :
  timer_invariant s -> timer_invariant (step s ev).
Proof.
  intros Hinv. destruct ev as [l auth now E | | h now E]; cbn [step].
  - unfold monitoringEffect. destruct (_ && _).
    + apply timer_invariant_start, timer_invariant_render, Hinv.
    + apply timer_invariant_render, Hinv.
  - apply timer_invariant_cleanup, Hinv.
  - destruct (intervals s !! h) as [l|]; [|exact Hinv].
    destruct (on_outside_timers (checkAlarms now E l) s) as (_ & _ & Hr & Hi & Hn).
    unfold timer_invariant. rewrite Hr, Hi, Hn. exact Hinv.
Qed.

Lemma timer_invariant_run evs : forall s,
  timer_invariant s -> timer_invariant (run s evs).
Proof.
  induction evs as [|ev evs IH]; intros s Hinv; [exact Hinv|].
  apply IH, timer_invariant_step, Hinv.
Qed.

Lemma timer_invariant_size s :
  timer_invariant s -> (size (intervals s) <= 1)%nat.
Proof.
  intros [_ [-> | (h & l & _ & _ & ->)]].
  - rewrite map_size_empty. lia.
  - rewrite map_size_singleton. lia.
Qed.


(** ** The loop over a concatenation *)

Lemma forEach_app f l1 l2 w :
  forEach f (l1 ++ l2) w = bind (forEach f l1) (fun _ => forEach f l2) w.
Proof.
  revert w. induction l1 as [|a l1 IH]; intros w; cbn [forEach app].
  - reflexivity.
  - unfold bind. destruct (f a w) as [w1 [[]|e]]; [|reflexivity].
    rewrite IH. reflexivity.
Qed.

(** * Properties of the engine *)

(** ** The firing window *)

(** Scenario A of the specification, evaluated on the code: one second
    before the trigger instant the window is closed, at the trigger instant
    it is open, at the start of the event it is closed again. *)
Example scenario_A :
  alarmTime standup = Some t_09_45_00 /\
  in_firing_window t_09_44_59 standup = false /\
  in_firing_window t_09_45_00 standup = true /\
  in_firing_window t_10_00_00 standup = false.
Proof. vm_compute. auto. Qed.

(** C1, as stated, fails: an alarm with a valid start instant and a lead
    time of at least one minute can have a trigger instant that no [Date]
    represents.  [alarmTime] is then an Invalid Date, the comparison
    [now >= alarmTime] is false, and the window the specification describes
    never opens.  Here the start is 1 800 000 000 000 ms, the lead is
    200 000 000 000 minutes and [now] is one second before the start. *)
Lemma far_lead_never_fires :
  eventTime far_lead = Some 1800000000000 /\
  1 <= Alarm.alarm_minutes_before far_lead /\
  evaluate_spec 1799999999000 1800000000000 (Alarm.alarm_minutes_before far_lead) Fire /\
  alarmTime far_lead = None /\
  in_firing_window 1799999999000 far_lead = false.
Proof.
  split; [reflexivity|]. split; [cbn; lia|]. split.
  - apply spec_Fire. unfold trigger_instant. cbn. lia.
  - split; reflexivity.
Qed.

(** C1 (amended): for every alarm with a valid start instant, a lead time of
    at least one minute and a trigger instant within the range of [Date],
    and for every instant [now], exactly one of Pending ([now] before the
    trigger instant), Fire (from the trigger instant up to, not including,
    the start) and Expired (from the start on) applies; the condition of
    [checkAlarms] holds exactly in the Fire state; it holds at the trigger
    instant itself and fails at the start instant itself. *)
Theorem firing_window_partition (a : alarm) (now start : Z) :
  eventTime a = Some start ->
  1 <= Alarm.alarm_minutes_before a ->
  Z.abs (trigger_instant start (Alarm.alarm_minutes_before a)) <= JsDate.MAX_TIME ->
  (exists! d, evaluate_spec now start (Alarm.alarm_minutes_before a) d) /\
  (in_firing_window now a = true <->
   evaluate_spec now start (Alarm.alarm_minutes_before a) Fire) /\
  in_firing_window (trigger_instant start (Alarm.alarm_minutes_before a)) a = true /\
  in_firing_window start a = false.
Proof.
  intros He Hl Hr.
  pose proof (in_firing_window_spec now a start He Hr) as Hnow.
  assert (Hlt : trigger_instant start (Alarm.alarm_minutes_before a) < start)
    by (unfold trigger_instant; lia).
  split; [|split; [|split]].
  - destruct (Z_lt_le_dec now (trigger_instant start (Alarm.alarm_minutes_before a))) as [H1|H1];
      [|destruct (Z_lt_le_dec now start) as [H2|H2]].
    + exists Pending. split; [constructor; exact H1|].
      intros d Hd. inversion Hd; subst; [reflexivity | lia | lia].
    + exists Fire. split; [constructor; lia|].
      intros d Hd. inversion Hd; subst; [lia | reflexivity | lia].
    + exists Expired. split; [constructor; exact H2|].
      intros d Hd. inversion Hd; subst; [lia | lia | reflexivity].
  - rewrite Hnow. split; [intros H; constructor; exact H | intros H; inversion H; assumption].
  - apply (in_firing_window_spec _ a start He Hr). lia.
  - destruct (in_firing_window start a) eqn:Hs; [|reflexivity].
    apply (in_firing_window_spec _ a start He Hr) in Hs. lia.
Qed.

Lemma firing_window_partition_witness :
  (exists! d, evaluate_spec t_09_45_05 t_10_00_00 15 d) /\
  (in_firing_window t_09_45_05 standup = true <->
   evaluate_spec t_09_45_05 t_10_00_00 15 Fire) /\
  in_firing_window (trigger_instant t_10_00_00 15) standup = true /\
  in_firing_window t_10_00_00 standup = false.
Proof.
  apply (firing_window_partition standup t_09_45_05 t_10_00_00).
  - reflexivity.
  - cbn. lia.
  - vm_compute. discriminate.
Defined.

(** C6: if the condition of [checkAlarms] holds for an alarm at time [t],
    then at every later time [t'] the alarm is in the Fire or in the Expired
    state and not in the Pending state: [t' >= alarmTime] still holds, and
    either the window is still open or [t' < eventTime] has become false.
    The condition is a function of the alarm and the instant alone, so
    asking again changes nothing. *)
Theorem fire_is_monotone (a : alarm) (t t' : Z) :
  in_firing_window t a = true ->
  t < t' ->
  exists start,
    eventTime a = Some start /\
    (evaluate_spec t' start (Alarm.alarm_minutes_before a) Fire \/
     evaluate_spec t' start (Alarm.alarm_minutes_before a) Expired) /\
    ~ evaluate_spec t' start (Alarm.alarm_minutes_before a) Pending /\
    JsDate.ge (Some t') (alarmTime a) = true /\
    (in_firing_window t' a = true \/ JsDate.lt (Some t') (eventTime a) = false).
Proof.
  intros Hw Htt'. apply in_firing_window_true in Hw as (e & He & Ha & Hr).
  exists e. split; [exact He|].
  split; [|split; [|split]].
  - destruct (Z_lt_le_dec t' e); [left | right]; constructor; lia.
  - intros Hp. inversion Hp. lia.
  - rewrite Ha. cbn. apply Z.leb_le. lia.
  - unfold in_firing_window. rewrite Ha, He. cbn.
    destruct (Z.ltb_spec t' e); [left | right]; [|reflexivity].
    rewrite andb_true_r. apply Z.leb_le. lia.
Qed.

Lemma fire_is_monotone_witness :
  exists start,
    eventTime standup = Some start /\
    (evaluate_spec t_10_00_00 start 15 Fire \/ evaluate_spec t_10_00_00 start 15 Expired) /\
    ~ evaluate_spec t_10_00_00 start 15 Pending /\
    JsDate.ge (Some t_10_00_00) (alarmTime standup) = true /\
    (in_firing_window t_10_00_00 standup = true \/
     JsDate.lt (Some t_10_00_00) (eventTime standup) = false).
Proof.
  apply (fire_is_monotone standup t_09_45_05 t_10_00_00).
  - reflexivity.
  - reflexivity.
Defined.

(** ** The dedup marker *)

(** C2: once the marker of an alarm identifier is in the store, no later
    evaluation pass calls [triggerAlarm] for that identifier, whatever the
    clock, the alarm list and the surroundings of each pass are: neither in
    a sequence of passes over the store, nor in any run of a freshly started
    engine on that store (a reload keeps [localStorage] and nothing else).
    In particular a tick that records the marker, followed by a second
    tick, calls the fan-out exactly once in total; and a tick inside the
    firing window during which nothing throws does record the marker. *)
Theorem marker_prevents_refire :
  (forall (i : string) (w : world) (ps : list (Z * env * list alarm)),
      has_fired (localStorage w) i = true ->
      has_fired (localStorage (passes ps w)) i = true /\
      fanout_count i (trace (passes ps w)) = fanout_count i (trace w)) /\
  (forall (i : string) (w : world) (evs : list event),
      has_fired (localStorage w) i = true ->
      fanout_count i (trace (outside (run (initial w) evs))) = fanout_count i (trace w)) /\
  (forall (i : string) (l1 l2 : list alarm) (w : world) (now1 now2 : Z) (E1 E2 : env),
      has_fired (localStorage w) i = false ->
      has_fired (localStorage (fst (checkAlarms now1 E1 l1 w))) i = true ->
      fanout_count i (trace (passes [(now1, E1, l1); (now2, E2, l2)] w)) =
      S (fanout_count i (trace w))) /\
  (forall (a : alarm) (l : list alarm) (w : world) (now1 now2 : Z) (E1 E2 : env),
      a ∈ l ->
      in_firing_window now1 a = true ->
      in_firing_window now2 a = true ->
      has_fired (localStorage w) (Alarm.id a) = false ->
      quiet E1 ->
      fanout_count (Alarm.id a) (trace (passes [(now1, E1, l); (now2, E2, l)] w)) =
      S (fanout_count (Alarm.id a) (trace w))).
Proof.
  split; [|split; [|split]].
  - intros i w ps Hi. apply passes_marked, Hi.
  - intros i w evs Hi. apply (run_marked evs (initial w) i Hi).
  - intros i l1 l2 w now1 now2 E1 E2 H0 H1. rewrite passes_cons.
    destruct (passes_marked [(now2, E2, l2)] _ _ H1) as [_ Hc2].
    rewrite Hc2. apply checkAlarms_records_once; assumption.
  - intros a l w now1 now2 E1 E2 Ha Hw1 _ Hf HE.
    destruct (checkAlarms_quiet_fires now1 E1 l a w HE Ha Hw1 Hf) as [Hf1 Hc1].
    rewrite passes_cons.
    destruct (passes_marked [(now2, E2, l)] _ _ Hf1) as [_ Hc2].
    rewrite Hc2. exact Hc1.
Qed.

Lemma marker_prevents_refire_witness :
  fanout_count "a1"
    (trace (passes [(t_09_45_05, all_fine, [standup; review]);
                    (t_09_45_15, notification_throws, [standup; review])] empty_world)) =
  S (fanout_count "a1" (trace empty_world)).
Proof.
  apply (proj2 (proj2 (proj2 marker_prevents_refire)) standup [standup; review] empty_world
               t_09_45_05 t_09_45_15 all_fine notification_throws).
  - apply list_elem_of_here.
  - reflexivity.
  - reflexivity.
  - reflexivity.
  - unfold quiet, all_fine. cbn. repeat split; intros; (discriminate || reflexivity).
Defined.

(** Scenario C on the code: the marker written by a first run is found by an
    engine that starts afresh on the same store, which then stays silent for
    that alarm although its window is open. *)
Example scenario_C :
  let w1 := outside (sync [standup] t_09_45_05 all_fine
                       (render [] true (initial empty_world))) in
  let restarted := initial (mkWorld (localStorage w1) []) in
  let s2 := run restarted [Commit [standup] true t_09_45_15 all_fine;
                           TimerFires 1 t_09_45_15 all_fine] in
  fanout_count "a1" (trace w1) = 1%nat /\
  pass_count (trace (outside s2)) = 2%nat /\
  fanout_count "a1" (trace (outside s2)) = 0%nat.
Proof. vm_compute. auto. Qed.

(** ** Failures of a channel or of the store *)

(** C3, evaluated on the code where it fails.  With notification
    permission granted and a [Notification] constructor that throws, the
    error leaves [triggerAlarm] and [checkAlarms]: the marker of the alarm
    is not written, the next alarm of the list is not looked at, and the
    next tick sounds the alarm again.  With a banner call that throws, the
    OS notification is not attempted either. *)
Theorem channel_failure_is_not_isolated :
  (let r := checkAlarms t_09_45_05 notification_throws [standup; review] empty_world in
   trace (fst r) =
     [CallCheckAlarms t_09_45_05; CallTriggerAlarm "a1"; AudioPlay; Toast "Standup" 15] /\
   snd r = Throw NotificationFailure /\
   has_fired (localStorage (fst r)) "a1" = false /\
   fanout_count "a2" (trace (fst r)) = 0%nat) /\
  (let w2 := passes [(t_09_45_05, notification_throws, [standup; review]);
                     (t_09_45_15, notification_throws, [standup; review])] empty_world in
   fanout_count "a1" (trace w2) = 2%nat) /\
  (let r := checkAlarms t_09_45_05 toast_throws [standup] empty_world in
   trace (fst r) = [CallCheckAlarms t_09_45_05; CallTriggerAlarm "a1"; AudioPlay] /\
   snd r = Throw ToastFailure /\
   has_fired (localStorage (fst r)) "a1" = false).
Proof. vm_compute. auto 10. Qed.

(** What the code does isolate: a rejected [play()] promise is logged by the
    [.catch] handler and neither the other channels nor the marker are
    affected. *)
Lemma audio_rejection_is_isolated now E a w :
  in_firing_window now a = true ->
  has_fired (localStorage w) (Alarm.id a) = false ->
  audio E a = AudioRejects -> toast E a = ToastShown ->
  notification E a = NotificationShown ->
  setItem_stores E (triggeredKey (Alarm.id a)) = true ->
  checkAlarm now E a w =
  ({| localStorage := <[triggeredKey (Alarm.id a) := "true"]> (localStorage w);
      trace := trace w ++
               [CallTriggerAlarm (Alarm.id a); AudioPlay; ConsoleError;
                Toast (Alarm.event_title a) (Alarm.alarm_minutes_before a);
                OsNotification (Alarm.event_title a) (Alarm.alarm_minutes_before a)] |},
   Normal tt).
Proof.
  intros Hw Hf Ha Ht Hn Hs. rewrite checkAlarm_fire by assumption.
  unfold triggerAlarm, bind, emit, setItem. rewrite Ha, Ht, Hn. cbn. rewrite Hs.
  rewrite <- !app_assoc. reflexivity.
Qed.

(** C4, as stated, fails: when [setItem] throws for the marker of the first
    alarm, the error leaves the [forEach] loop, and the second alarm, whose
    window is open and whose marker is unset and could be written, is not
    evaluated in that pass. *)
Lemma storage_failure_skips_remaining_alarms :
  let r := checkAlarms t_09_45_05 storage_rejects_a1 [standup; review] empty_world in
  in_firing_window t_09_45_05 review = true /\
  has_fired (localStorage empty_world) "a2" = false /\
  setItem_stores storage_rejects_a1 (triggeredKey "a2") = true /\
  snd r = Throw StorageFailure /\
  fanout_count "a2" (trace (fst r)) = 0%nat /\
  fst (checkAlarms t_09_45_05 storage_rejects_a1 [standup; review] empty_world) =
  fst (checkAlarms t_09_45_05 storage_rejects_a1 [standup] empty_world).
Proof. vm_compute. auto 10. Qed.

(** C4 (amended): a thrown error of the marker write for one alarm ends the
    evaluation pass at that alarm.  The alarms before it in the list have
    been evaluated and the fan-out for it has run; its marker stays unset;
    the error is the outcome of the pass; and the alarms after it are not
    evaluated, the pass being the same whatever follows in the list. *)
Theorem storage_failure_aborts_pass
    (now : Z) (E : env) (l1 l2 : list alarm) (a : alarm) (w w1 w2 : world) :
  checkAlarms now E l1 w = (w1, Normal tt) ->
  in_firing_window now a = true ->
  has_fired (localStorage w1) (Alarm.id a) = false ->
  triggerAlarm E a w1 = (w2, Normal tt) ->
  setItem_stores E (triggeredKey (Alarm.id a)) = false ->
  checkAlarms now E (l1 ++ a :: l2) w = (w2, Throw StorageFailure) /\
  has_fired (localStorage w2) (Alarm.id a) = false /\
  fanout_count (Alarm.id a) (trace w2) = S (fanout_count (Alarm.id a) (trace w1)).
Proof.
  intros H1 Hw Hf Ht Hs.
  destruct (triggerAlarm_frame _ _ _ _ _ Ht) as (Hst & t & Htr & Hq).
  split; [|split].
  - rewrite checkAlarms_unfold in *. rewrite forEach_app, (bind_Normal _ _ _ _ _ H1).
    cbn [forEach]. apply bind_Throw.
    rewrite checkAlarm_fire by assumption.
    rewrite (bind_Normal _ _ _ _ _ Ht). unfold setItem. rewrite Hs. reflexivity.
  - rewrite Hst. exact Hf.
  - rewrite Htr, fanout_count_app, fanout_count_trigger by assumption.
    rewrite String.eqb_refl. lia.
Qed.

Lemma storage_failure_aborts_pass_witness :
  checkAlarms t_09_45_05 storage_rejects_a1 ([] ++ standup :: [review]) empty_world =
  (mkWorld ∅ [CallCheckAlarms t_09_45_05; CallTriggerAlarm "a1"; AudioPlay;
              Toast "Standup" 15; OsNotification "Standup" 15],
   Throw StorageFailure) /\
  has_fired ∅ "a1" = false /\
  fanout_count "a1" [CallCheckAlarms t_09_45_05; CallTriggerAlarm "a1"; AudioPlay;
                     Toast "Standup" 15; OsNotification "Standup" 15] =
  S (fanout_count "a1" [CallCheckAlarms t_09_45_05]).
Proof.
  apply (storage_failure_aborts_pass t_09_45_05 storage_rejects_a1 [] [review] standup
           empty_world (mkWorld ∅ [CallCheckAlarms t_09_45_05])
           (mkWorld ∅ [CallCheckAlarms t_09_45_05; CallTriggerAlarm "a1"; AudioPlay;
                       Toast "Standup" 15; OsNotification "Standup" 15])).
  - reflexivity.
  - reflexivity.
  - reflexivity.
  - reflexivity.
  - reflexivity.
Defined.

(** ** Synchronising the alarm list *)

Lemma on_outside_outside m s : outside (fst (on_outside m s)) = fst (m (outside s)).
Proof. unfold on_outside. destruct (m (outside s)) as [w c]. reflexivity. Qed.

Lemma clearCurrentInterval_frame s :
  alarms (clearCurrentInterval s) = alarms s /\
  isAuthenticated (clearCurrentInterval s) = isAuthenticated s /\
  outside (clearCurrentInterval s) = outside s.
Proof.
  unfold clearCurrentInterval. destruct (alarmCheckIntervalRef s) as [[|h]|]; cbn; auto.
Qed.

Lemma startAlarmMonitoring_outside now E s :
  outside (fst (startAlarmMonitoring now E s)) =
  fst (checkAlarms now E (alarms s) (outside s)).
Proof.
  unfold startAlarmMonitoring. rewrite on_outside_outside.
  destruct (clearCurrentInterval_frame s) as (Ha & _ & Ho).
  cbn [setCheckInterval alarms outside]. rewrite Ha, Ho. reflexivity.
Qed.

Lemma sync_outside l now E s :
  isAuthenticated s = true -> l <> [] ->
  outside (sync l now E s) = fst (checkAlarms now E l (outside s)).
Proof.
  intros Hauth Hl. unfold sync, run. cbn [fold_left step].
  unfold monitoringEffect. cbn [render isAuthenticated alarms].
  rewrite Hauth. destruct l as [|a l]; [congruence|]. cbn [length Nat.ltb Nat.leb andb].
  rewrite startAlarmMonitoring_outside. cbn [render alarms outside].
  destruct (clearCurrentInterval_frame s) as (_ & _ & Ho).
  unfold monitoringCleanup. rewrite Ho. reflexivity.
Qed.

(** C5, as stated, fails: the effect calls [startAlarmMonitoring] only under
    the guard [isAuthenticated && alarms.length > 0].  When the list is
    replaced while [isAuthenticated] is false, no evaluation pass runs, and
    an alarm whose window is open and whose marker is unset is not fired;
    and a sync with the empty list runs no pass either. *)
Lemma sync_unauthenticated_runs_no_pass :
  let s := sync [standup] t_09_45_05 all_fine (initial empty_world) in
  let s' := sync [] t_09_45_05 all_fine (render [] true (initial empty_world)) in
  isAuthenticated (initial empty_world) = false /\
  in_firing_window t_09_45_05 standup = true /\
  has_fired (localStorage empty_world) "a1" = false /\
  pass_count (trace (outside s)) = 0%nat /\
  fanout_count "a1" (trace (outside s)) = 0%nat /\
  intervals s = ∅ /\
  pass_count (trace (outside s')) = 0%nat.
Proof. vm_compute. auto 10. Qed.

(** C5 (amended): every call of sync made while [isAuthenticated] holds and
    with a non-empty new list runs one evaluation pass over the new list
    within the sync itself, without any timer tick.  In particular, for an
    alarm of the new list whose trigger instant, a representable date, is
    not after [now], whose start is after [now] and whose marker is unset,
    that pass calls the fan-out once, provided nothing throws during the
    pass. *)
Theorem sync_runs_immediate_pass (l : list alarm) (now : Z) (E : env) (s : engine) :
  isAuthenticated s = true ->
  l <> [] ->
  outside (sync l now E s) = fst (checkAlarms now E l (outside s)) /\
  pass_count (trace (outside (sync l now E s))) = S (pass_count (trace (outside s))) /\
  (forall (a : alarm) (start : Z),
      a ∈ l ->
      quiet E ->
      eventTime a = Some start ->
      Z.abs (trigger_instant start (Alarm.alarm_minutes_before a)) <= JsDate.MAX_TIME ->
      trigger_instant start (Alarm.alarm_minutes_before a) <= now < start ->
      has_fired (localStorage (outside s)) (Alarm.id a) = false ->
      fanout_count (Alarm.id a) (trace (outside (sync l now E s))) =
      S (fanout_count (Alarm.id a) (trace (outside s)))).
Proof.
  intros Hauth Hl. rewrite (sync_outside l now E s Hauth Hl).
  split; [reflexivity|]. split.
  - destruct (checkAlarms now E l (outside s)) as [w c] eqn:Hp. cbn [fst].
    apply checkAlarms_frame in Hp as (_ & t & -> & Hp & _).
    change (CallCheckAlarms now :: t) with ([CallCheckAlarms now] ++ t).
    rewrite !pass_count_app, Hp. cbn. lia.
  - intros a start Ha HE He Hr Hnow Hf.
    apply (checkAlarms_quiet_fires now E l a (outside s) HE Ha); [|exact Hf].
    apply (in_firing_window_spec now a start He Hr), Hnow.
Qed.

Lemma sync_runs_immediate_pass_witness :
  let s := render [] true (initial empty_world) in
  outside (sync [standup] t_09_45_05 all_fine s) =
    fst (checkAlarms t_09_45_05 all_fine [standup] (outside s)) /\
  pass_count (trace (outside (sync [standup] t_09_45_05 all_fine s))) =
    S (pass_count (trace (outside s))) /\
  fanout_count "a1" (trace (outside (sync [standup] t_09_45_05 all_fine s))) =
    S (fanout_count "a1" (trace (outside s))).
Proof.
  cbn zeta.
  destruct (sync_runs_immediate_pass [standup] t_09_45_05 all_fine
              (render [] true (initial empty_world))) as (H1 & H2 & H3).
  - reflexivity.
  - discriminate.
  - split; [exact H1|]. split; [exact H2|].
    apply (H3 standup t_10_00_00).
    + apply list_elem_of_here.
    + unfold quiet, all_fine. cbn. repeat split; intros; (discriminate || reflexivity).
    + reflexivity.
    + vm_compute. discriminate.
    + vm_compute. split; [discriminate | reflexivity].
    + reflexivity.
Defined.

(** ** Malformed alarms *)

(** C7: an alarm whose lead time is zero or negative, or whose start
    instant is missing or not a valid date, never satisfies the condition of
    [checkAlarms]: its round of the loop completes normally without calling
    the fan-out and without touching the store, and the pass is the pass
    over the list without it, so the alarms after it are evaluated as if it
    were not there. *)
Theorem malformed_alarm_is_skipped (a : alarm) (now : Z) (E : env) :
  Alarm.alarm_minutes_before a <= 0 \/ eventTime a = None ->
  in_firing_window now a = false /\
  (forall w, checkAlarm now E a w = (w, Normal tt)) /\
  (forall l1 l2 w,
      checkAlarms now E (l1 ++ a :: l2) w = checkAlarms now E (l1 ++ l2) w).
Proof.
  intros Hbad.
  assert (Hw : in_firing_window now a = false).
  { destruct Hbad as [Hl | He].
    - apply in_firing_window_nonpositive_lead, Hl.
    - apply in_firing_window_invalid_start, He. }
  assert (Hskip : forall w, checkAlarm now E a w = (w, Normal tt)).
  { intros w. apply checkAlarm_skip. left. exact Hw. }
  split; [exact Hw|]. split; [exact Hskip|].
  intros l1 l2 w. rewrite !checkAlarms_unfold, !forEach_app. unfold bind at 1 2.
  destruct (forEach (checkAlarm now E) l1 _) as [w1 [[]|e]]; [|reflexivity].
  cbn [forEach]. rewrite (bind_Normal _ _ _ _ _ (Hskip w1)). reflexivity.
Qed.

Lemma malformed_alarm_is_skipped_witness :
  in_firing_window t_10_00_00 zero_lead = false /\
  (forall w, checkAlarm t_10_00_00 all_fine zero_lead w = (w, Normal tt)) /\
  (forall l1 l2 w,
      checkAlarms t_10_00_00 all_fine (l1 ++ zero_lead :: l2) w =
      checkAlarms t_10_00_00 all_fine (l1 ++ l2) w).
Proof.
  apply (malformed_alarm_is_skipped zero_lead t_10_00_00 all_fine).
  left. cbn. lia.
Defined.

(** ** The recurring timer *)

(** C8: in every run of an engine instance, whatever the order of renders,
    effect runs, cleanups and timer ticks, at most one interval is active.
    [startAlarmMonitoring] leaves exactly the interval it has just created,
    held by the ref, any earlier one having been cleared first; and the
    cleanup of the effect leaves none. *)
Theorem at_most_one_timer (w : world) (evs : list event) (now : Z) (E : env) :
  let s := run (initial w) evs in
  (size (intervals s) <= 1)%nat /\
  (exists h, alarmCheckIntervalRef (fst (startAlarmMonitoring now E s)) = Some h /\
             intervals (fst (startAlarmMonitoring now E s)) = {[ h := alarms s ]}) /\
  intervals (monitoringCleanup s) = ∅.
Proof.
  cbn zeta.
  pose proof (timer_invariant_run evs _ (timer_invariant_initial w)) as Hinv.
  split; [apply timer_invariant_size, Hinv|]. split.
  - destruct (startAlarmMonitoring_timers now E _ Hinv) as (Hr & Hi & _). eauto.
  - apply (clearCurrentInterval_empties _ Hinv).
Qed.




(** The same tick does fire the alarm while the engine is armed. *)
Example armed_engine_ticks :
  let s := run (initial empty_world) [Commit [standup] true t_09_44_59 all_fine] in
  size (intervals s) = 1%nat /\
  fanout_count "a1" (trace (outside s)) = 0%nat /\
  fanout_count "a1" (trace (outside (run s [TimerFires 1 t_09_45_05 all_fine]))) = 1%nat.
Proof. vm_compute. auto. Qed.

(** ** What a pass may change *)

(** C10: an evaluation pass, whether it completes or is ended by an error,
    changes nothing of the component instance but the outside world (the
    alarm list, the authentication flag, the ref, the timers stay as they
    are), and in the store it changes at most marker keys: every key whose
    value differs afterwards is the key [alarm_triggered_<id>] of an alarm of
    the list whose window contains [now], holds ['true'], and was unset
    before the pass (absent, or holding the empty string, which the test
    [!getItem(key)] treats alike).  No key is deleted and no other key is
    written. *)
Theorem pass_only_writes_markers (now : Z) (E : env) (l : list alarm) (s : engine) :
  let s' := fst (on_outside (checkAlarms now E l) s) in
  alarms s' = alarms s /\
  isAuthenticated s' = isAuthenticated s /\
  alarmCheckIntervalRef s' = alarmCheckIntervalRef s /\
  intervals s' = intervals s /\
  next_handle s' = next_handle s /\
  outside s' = fst (checkAlarms now E l (outside s)) /\
  only_marks now l (localStorage (outside s)) (localStorage (outside s')).
Proof.
  cbn zeta.
  destruct (on_outside_timers (checkAlarms now E l) s) as (H1 & H2 & H3 & H4 & H5).
  assert (Ho : outside (fst (on_outside (checkAlarms now E l) s)) =
               fst (checkAlarms now E l (outside s))).
  { unfold on_outside. destruct (checkAlarms now E l (outside s)). reflexivity. }
  repeat (split; [assumption|]). rewrite Ho.
  destruct (checkAlarms now E l (outside s)) as [w c] eqn:Hp.
  apply checkAlarms_frame in Hp as [Hm _]. exact Hm.
Qed.

(** * Further properties of the code *)

(** ** One evaluation pass, whatever fails *)

Lemma due_cons now i a l :
  due now i (a :: l) = (String.eqb i (Alarm.id a) && in_firing_window now a) || due now i l.
Proof. reflexivity. Qed.

Lemma forEach_fanout_sound now E l : forall w w' c,
  forEach (checkAlarm now E) l w = (w', c) ->
  exists t, trace w' = trace w ++ t /\
    forall i, (fanout_count i t <= 1)%nat /\
              (fanout_count i t = 1%nat ->
               due now i l = true /\ has_fired (localStorage w) i = false).
Proof.
  induction l as [|a l IH]; intros w w' c; cbn [forEach].
  - intros [= <- <-]. exists []. rewrite app_nil_r. split; [reflexivity|].
    intros i. cbn. split; [lia | discriminate].
  - intros Hl. destruct (checkAlarm now E a w) as [w1 c1] eqn:Ha.
    destruct (checkAlarm_outcome _ _ _ _ _ _ Ha)
      as [[-> ->] | (Hw & Hf & t1 & Ht1 & Hq1 & [[-> Hst1] | [[e ->] Hst1]])].
    + rewrite (bind_Normal _ _ _ _ _ Ha) in Hl.
      destruct (IH _ _ _ Hl) as (t & Ht & Hc). exists t. split; [exact Ht|].
      intros i. destruct (Hc i) as [Hle H1]. split; [exact Hle|].
      intros Hone. destruct (H1 Hone) as [Hd Hu]. rewrite due_cons, Hd, orb_true_r. auto.
    + rewrite (bind_Normal _ _ _ _ _ Ha) in Hl.
      destruct (IH _ _ _ Hl) as (t2 & Ht2 & Hc2).
      destruct (forEach_frame _ _ _ _ _ _ Hl) as (_ & t2' & Ht2' & _ & Hz2).
      assert (t2' = t2) as -> by (rewrite Ht2 in Ht2'; eapply app_inv_head; eauto).
      exists ((CallTriggerAlarm (Alarm.id a) :: t1) ++ t2).
      rewrite Ht2, Ht1, <- app_assoc. split; [reflexivity|].
      intros i. rewrite fanout_count_app, (fanout_count_trigger i _ t1 Hq1), due_cons.
      assert (Hi1 : has_fired (localStorage w1) i =
                    String.eqb i (Alarm.id a) || has_fired (localStorage w) i).
      { rewrite Hst1. apply has_fired_insert. }
      destruct (String.eqb i (Alarm.id a)) eqn:Heq.
      * apply String.eqb_eq in Heq. subst i.
        rewrite (Hz2 (Alarm.id a)) by exact Hi1.
        rewrite Hw. cbn. split; [lia | auto].
      * cbn in Hi1. specialize (Hc2 i). rewrite Hi1 in Hc2. cbn. exact Hc2.
    + rewrite (bind_Throw _ _ _ _ _ Ha) in Hl. injection Hl as <- <-.
      exists (CallTriggerAlarm (Alarm.id a) :: t1). split; [exact Ht1|].
      intros i. rewrite (fanout_count_trigger i _ t1 Hq1), due_cons.
      destruct (String.eqb i (Alarm.id a)) eqn:Heq.
      * apply String.eqb_eq in Heq. subst i.
        rewrite Hw. cbn. split; [lia | auto].
      * split; [lia | discriminate].
Qed.

(** X1: in one evaluation pass, whatever the surroundings do and whether or
    not the pass is ended by an error, [triggerAlarm] is called at most once
    for any alarm identifier, and it is called only for an identifier that
    has an alarm in the list whose window is open and whose marker was unset
    when the pass began. *)
Theorem pass_fanout_sound (now : Z) (E : env) (l : list alarm) (w : world) (i : string) :
  exists t,
    trace (fst (checkAlarms now E l w)) = trace w ++ CallCheckAlarms now :: t /\
    (fanout_count i t <= 1)%nat /\
    (fanout_count i t = 1%nat ->
     due now i l = true /\ has_fired (localStorage w) i = false).
Proof.
  rewrite checkAlarms_unfold.
  destruct (forEach _ _ _) as [w' c] eqn:Hl. cbn [fst].
  destruct (forEach_fanout_sound _ _ _ _ _ _ Hl) as (t & Ht & Hc).
  exists t. cbn [trace localStorage] in *. rewrite Ht, <- app_assoc.
  split; [reflexivity | apply Hc].
Qed.

(** X2: in a pass during which nothing throws, the pass completes, the
    fan-out is called exactly once for every identifier that has an alarm in
    the list with open window and unset marker and not at all for any other
    identifier, and afterwards exactly those identifiers have gained their
    marker. *)
Theorem quiet_pass_fires_each_due_once
    (now : Z) (E : env) (l : list alarm) (w : world) (i : string) :
  quiet E ->
  snd (checkAlarms now E l w) = Normal tt /\
  has_fired (localStorage (fst (checkAlarms now E l w))) i =
    has_fired (localStorage w) i || due now i l /\
  fanout_count i (trace (fst (checkAlarms now E l w))) =
    (fanout_count i (trace w) +
     (if negb (has_fired (localStorage w) i) && due now i l then 1 else 0))%nat.
Proof.
  intros HE. rewrite checkAlarms_unfold.
  destruct (forEach _ _ _) as [w' c] eqn:Hl. cbn [fst snd].
  destruct (forEach_quiet now E l HE _ _ _ Hl) as (-> & Hf & t & Ht & Hc).
  cbn [trace localStorage] in *. split; [reflexivity|]. split; [apply Hf|].
  rewrite Ht, !fanout_count_app, Hc. cbn. lia.
Qed.

Lemma all_fine_quiet : quiet all_fine.
Proof.
  unfold quiet, all_fine. cbn. repeat split; intros; (discriminate || reflexivity).
Defined.

Lemma quiet_pass_fires_each_due_once_witness :
  snd (checkAlarms t_09_45_05 all_fine [standup; zero_lead; standup] empty_world) = Normal tt /\
  has_fired (localStorage (fst (checkAlarms t_09_45_05 all_fine
                                  [standup; zero_lead; standup] empty_world))) "a1" =
    has_fired (localStorage empty_world) "a1" ||
    due t_09_45_05 "a1" [standup; zero_lead; standup] /\
  fanout_count "a1" (trace (fst (checkAlarms t_09_45_05 all_fine
                                   [standup; zero_lead; standup] empty_world))) =
    (fanout_count "a1" (trace empty_world) +
     (if negb (has_fired (localStorage empty_world) "a1") &&
         due t_09_45_05 "a1" [standup; zero_lead; standup] then 1 else 0))%nat.
Proof.
  apply (quiet_pass_fires_each_due_once t_09_45_05 all_fine
           [standup; zero_lead; standup] empty_world "a1").
  exact all_fine_quiet.
Defined.

(** ** Repeating a pass *)

Lemma checkAlarm_normal_marks now E a w w1 :
  checkAlarm now E a w = (w1, Normal tt) ->
  in_firing_window now a = true ->
  has_fired (localStorage w1) (Alarm.id a) = true.
Proof.
  intros Ha Hw.
  destruct (checkAlarm_outcome _ _ _ _ _ _ Ha)
    as [[-> _] | (_ & Hf & t1 & _ & _ & [[_ Hst1] | [[e He] _]])].
  - destruct (has_fired (localStorage w) (Alarm.id a)) eqn:Hf; [reflexivity|].
    rewrite checkAlarm_fire in Ha by assumption.
    destruct (triggerAlarm E a w) as [w2 c2] eqn:Ht.
    destruct (triggerAlarm_frame _ _ _ _ _ Ht) as (_ & t & Htr & _).
    destruct c2 as [[]|e].
    + rewrite (bind_Normal _ _ _ _ _ Ht) in Ha. unfold setItem in Ha.
      destruct (setItem_stores E _); [|discriminate].
      injection Ha as Hw2. rewrite <- Hw2 in Htr. cbn in Htr.
      apply (f_equal (@length effect)) in Htr. rewrite length_app in Htr. cbn in Htr. lia.
    + rewrite (bind_Throw _ _ _ _ _ Ht) in Ha. discriminate.
  - rewrite Hst1, has_fired_insert, String.eqb_refl. reflexivity.
  - discriminate.
Qed.

Lemma forEach_normal_marks now E l : forall w w',
  forEach (checkAlarm now E) l w = (w', Normal tt) ->
  forall a, a ∈ l -> in_firing_window now a = true ->
            has_fired (localStorage w') (Alarm.id a) = true.
Proof.
  induction l as [|b l IH]; intros w w'; cbn [forEach]; intros Hl a Ha Hw.
  - apply elem_of_nil in Ha. contradiction.
  - destruct (checkAlarm now E b w) as [w1 [[]|e]] eqn:Hb.
    + rewrite (bind_Normal _ _ _ _ _ Hb) in Hl.
      apply elem_of_cons in Ha as [-> | Ha].
      * destruct (forEach_frame _ _ _ _ _ _ Hl) as (Hm & _).
        eapply only_marks_has_fired; [exact Hm|].
        eapply checkAlarm_normal_marks; eassumption.
      * eapply IH; eassumption.
    + rewrite (bind_Throw _ _ _ _ _ Hb) in Hl. discriminate.
Qed.

Lemma forEach_all_marked now E l : forall w,
  (forall a, a ∈ l -> in_firing_window now a = true ->
             has_fired (localStorage w) (Alarm.id a) = true) ->
  forEach (checkAlarm now E) l w = (w, Normal tt).
Proof.
  induction l as [|b l IH]; intros w Hall; cbn [forEach]; [reflexivity|].
  assert (Hb : checkAlarm now E b w = (w, Normal tt)).
  { apply checkAlarm_skip. destruct (in_firing_window now b) eqn:Hw; [right | left; reflexivity].
    apply Hall; [apply list_elem_of_here | exact Hw]. }
  rewrite (bind_Normal _ _ _ _ _ Hb). apply IH.
  intros a Ha. apply Hall, list_elem_of_further, Ha.
Qed.

(** X3: when a pass completes without error, every alarm of the list whose
    window is open has its marker, and a second pass over the same list at
    the same clock value, whatever its surroundings, calls no fan-out and
    writes nothing: it only records that it ran. *)
Theorem completed_pass_is_idempotent
    (now : Z) (E E' : env) (l : list alarm) (w : world) :
  snd (checkAlarms now E l w) = Normal tt ->
  let w1 := fst (checkAlarms now E l w) in
  (forall a, a ∈ l -> in_firing_window now a = true ->
             has_fired (localStorage w1) (Alarm.id a) = true) /\
  checkAlarms now E' l w1 =
  ({| localStorage := localStorage w1; trace := trace w1 ++ [CallCheckAlarms now] |},
   Normal tt).
Proof.
  intros Hc. cbn zeta. rewrite checkAlarms_unfold in *.
  destruct (forEach _ _ _) as [w1 c] eqn:Hl. cbn [fst snd] in *. subst c.
  pose proof (forEach_normal_marks _ _ _ _ _ Hl) as Hall.
  split; [exact Hall|].
  rewrite checkAlarms_unfold. apply forEach_all_marked. exact Hall.
Qed.

Lemma completed_pass_is_idempotent_witness :
  let w1 := fst (checkAlarms t_09_45_05 all_fine [standup; review] empty_world) in
  (forall a, a ∈ [standup; review] -> in_firing_window t_09_45_05 a = true ->
             has_fired (localStorage w1) (Alarm.id a) = true) /\
  checkAlarms t_09_45_05 notification_throws [standup; review] w1 =
  ({| localStorage := localStorage w1; trace := trace w1 ++ [CallCheckAlarms t_09_45_05] |},
   Normal tt).
Proof.
  apply (completed_pass_is_idempotent t_09_45_05 all_fine notification_throws
           [standup; review] empty_world).
  reflexivity.
Defined.

(** ** An alarm whose delivery keeps failing *)

Lemma triggerAlarm_Normal_channels E a w w1 :
  triggerAlarm E a w = (w1, Normal tt) ->
  audio E a <> AudioThrows /\ toast E a <> ToastThrows /\
  notification E a <> NotificationThrows.
Proof.
  unfold triggerAlarm, bind, emit, ret, throw.
  destruct (audio E a), (toast E a), (notification E a); cbn; intros H;
    try discriminate; repeat split; discriminate.
Qed.

Lemma checkAlarm_delivery_fails now E a w :
  in_firing_window now a = true ->
  has_fired (localStorage w) (Alarm.id a) = false ->
  delivery_fails E a ->
  exists w' e,
    checkAlarm now E a w = (w', Throw e) /\
    localStorage w' = localStorage w /\
    fanout_count (Alarm.id a) (trace w') = S (fanout_count (Alarm.id a) (trace w)).
Proof.
  intros Hw Hf Hfail. rewrite checkAlarm_fire by assumption.
  destruct (triggerAlarm E a w) as [w1 c1] eqn:Ht.
  destruct (triggerAlarm_frame _ _ _ _ _ Ht) as (Hst & t & Htr & Hq).
  assert (Hc : fanout_count (Alarm.id a) (trace w1) = S (fanout_count (Alarm.id a) (trace w))).
  { rewrite Htr, fanout_count_app, (fanout_count_trigger _ _ t Hq), String.eqb_refl. lia. }
  destruct c1 as [[]|e].
  - destruct (triggerAlarm_Normal_channels _ _ _ _ Ht) as (H1 & H2 & H3).
    destruct Hfail as [H | [H | [H | H]]]; try contradiction.
    exists w1, StorageFailure. rewrite (bind_Normal _ _ _ _ _ Ht).
    unfold setItem. rewrite H. auto.
  - exists w1, e. rewrite (bind_Throw _ _ _ _ _ Ht). auto.
Qed.

(** X4: an alarm that is first in the list, with open window and unset
    marker, and for which a channel or the marker write throws in every
    pass, never gets its marker: each of those passes calls the fan-out for
    it again, so the number of calls grows by one with every tick. *)
Theorem failing_delivery_refires_every_pass
    (a : alarm) (ps : list (Z * env * list alarm)) (w : world) :
  has_fired (localStorage w) (Alarm.id a) = false ->
  Forall (fun p => hd_error p.2 = Some a /\
                   in_firing_window p.1.1 a = true /\
                   delivery_fails p.1.2 a) ps ->
  has_fired (localStorage (passes ps w)) (Alarm.id a) = false /\
  fanout_count (Alarm.id a) (trace (passes ps w)) =
    (fanout_count (Alarm.id a) (trace w) + length ps)%nat.
Proof.
  revert w. induction ps as [|[[now E] l] ps IH]; intros w Hf Hall.
  - cbn. split; [exact Hf | lia].
  - inversion Hall as [|p ps' (Hhd & Hw & Hfail) Hrest]; subst. cbn in Hhd, Hw, Hfail.
    destruct l as [|b l2]; [discriminate|]. injection Hhd as ->.
    rewrite passes_cons.
    assert (H1 : has_fired (localStorage (fst (checkAlarms now E (a :: l2) w))) (Alarm.id a)
                 = false /\
                 fanout_count (Alarm.id a) (trace (fst (checkAlarms now E (a :: l2) w))) =
                 S (fanout_count (Alarm.id a) (trace w))).
    { rewrite checkAlarms_unfold. cbn [forEach].
      destruct (checkAlarm_delivery_fails now E a
                  {| localStorage := localStorage w;
                     trace := trace w ++ [CallCheckAlarms now] |} Hw Hf Hfail)
        as (w' & e & Ha & Hst & Hc).
      rewrite (bind_Throw _ _ _ _ _ Ha). cbn [fst].
      unfold has_fired. rewrite Hst. split; [exact Hf|].
      rewrite Hc. cbn [trace]. rewrite fanout_count_app. cbn. lia. }
    destruct H1 as [Hf1 Hc1]. destruct (IH _ Hf1 Hrest) as [Hf2 Hc2].
    split; [exact Hf2|]. rewrite Hc2, Hc1. cbn [length]. lia.
Qed.

Lemma failing_delivery_refires_every_pass_witness :
  has_fired (localStorage (passes [(t_09_45_05, notification_throws, [standup; review]);
                                   (t_09_45_15, storage_rejects_a1, [standup; review])]
                             empty_world)) "a1" = false /\
  fanout_count "a1"
    (trace (passes [(t_09_45_05, notification_throws, [standup; review]);
                    (t_09_45_15, storage_rejects_a1, [standup; review])] empty_world)) =
    (fanout_count "a1" (trace empty_world) + 2)%nat.
Proof.
  apply (failing_delivery_refires_every_pass standup
           [(t_09_45_05, notification_throws, [standup; review]);
            (t_09_45_15, storage_rejects_a1, [standup; review])] empty_world).
  - reflexivity.
  - constructor; [|constructor; [|constructor]].
    + split; [reflexivity|]. split; [reflexivity|]. right. right. left. reflexivity.
    + split; [reflexivity|]. split; [reflexivity|]. right. right. right. reflexivity.
Defined.

(** ** Re-running the monitoring effect *)

Lemma monitoringEffect_state now E s :
  alarms (fst (monitoringEffect now E s)) = alarms s /\
  isAuthenticated (fst (monitoringEffect now E s)) = isAuthenticated s.
Proof.
  unfold monitoringEffect. destruct (_ && _); [|auto].
  unfold startAlarmMonitoring.
  destruct (on_outside_timers
              (checkAlarms now E (alarms (setCheckInterval (clearCurrentInterval s))))
              (setCheckInterval (clearCurrentInterval s))) as (-> & -> & _).
  destruct (clearCurrentInterval_frame s) as (Ha & Hi & _). cbn. auto.
Qed.

Lemma update_unfold l auth now E s :
  update l auth now E s = fst (monitoringEffect now E (render l auth (monitoringCleanup s))).
Proof. reflexivity. Qed.

Lemma update_state l auth now E s :
  alarms (update l auth now E s) = l /\ isAuthenticated (update l auth now E s) = auth.
Proof.
  rewrite update_unfold.
  destruct (monitoringEffect_state now E (render l auth (monitoringCleanup s))) as [-> ->].
  auto.
Qed.

Lemma update_outside l auth now E s :
  outside (update l auth now E s) =
  if auth && (0 <? length l)%nat
  then fst (checkAlarms now E l (outside s))
  else outside s.
Proof.
  rewrite update_unfold. unfold monitoringEffect. cbn [render isAuthenticated alarms].
  destruct (clearCurrentInterval_frame s) as (_ & _ & Ho). unfold monitoringCleanup.
  destruct (auth && _).
  - rewrite startAlarmMonitoring_outside. cbn [render alarms outside]. rewrite Ho. reflexivity.
  - cbn. exact Ho.
Qed.

Lemma timer_invariant_update l auth now E s :
  timer_invariant s -> timer_invariant (update l auth now E s).
Proof. apply timer_invariant_run. Qed.

(** After the effect has re-run, a timer is active exactly when the guard
    holds, and it is the timer of the new list. *)
Lemma update_armed l auth now E s :
  timer_invariant s -> armed_for_current_list (update l auth now E s).
Proof.
  intros Hinv. unfold armed_for_current_list.
  destruct (update_state l auth now E s) as [-> ->].
  rewrite update_unfold. unfold monitoringEffect. cbn [render isAuthenticated alarms].
  pose proof (timer_invariant_render l auth _ (timer_invariant_cleanup s Hinv)) as Hinv2.
  destruct (auth && (0 <? length l)%nat).
  - destruct (startAlarmMonitoring_timers now E _ Hinv2) as (Hr & Hi & _).
    eexists. split; [exact Hr | exact Hi].
  - cbn. apply (clearCurrentInterval_empties s Hinv).
Qed.

Lemma step_tick_state s h now E :
  alarms (step s (TimerFires h now E)) = alarms s /\
  isAuthenticated (step s (TimerFires h now E)) = isAuthenticated s /\
  alarmCheckIntervalRef (step s (TimerFires h now E)) = alarmCheckIntervalRef s /\
  intervals (step s (TimerFires h now E)) = intervals s.
Proof.
  cbn [step]. destruct (intervals s !! h) as [l|]; [|auto].
  destruct (on_outside_timers (checkAlarms now E l) s) as (-> & -> & -> & -> & _). auto.
Qed.

Lemma tick_armed s h now E :
  armed_for_current_list s -> armed_for_current_list (step s (TimerFires h now E)).
Proof.
  unfold armed_for_current_list.
  destruct (step_tick_state s h now E) as (-> & -> & -> & ->). auto.
Qed.

(** ** Keys of the store that are not markers *)

Lemma userEmail_not_marker i : "userEmail" <> triggeredKey i.
Proof. unfold triggeredKey. cbv [String.append]. discriminate. Qed.

Lemma only_marks_other_key now l st st' k :
  only_marks now l st st' -> (forall i, k <> triggeredKey i) -> st' !! k = st !! k.
Proof.
  intros Hm Hk. destruct (Hm k) as [H | (_ & _ & a & _ & Heq & _)]; [exact H|].
  exfalso. exact (Hk _ Heq).
Qed.

Lemma checkAlarms_other_key now E l w k :
  (forall i, k <> triggeredKey i) ->
  localStorage (fst (checkAlarms now E l w)) !! k = localStorage w !! k.
Proof.
  intros Hk. destruct (checkAlarms now E l w) as [w' c] eqn:Hp. cbn [fst].
  apply checkAlarms_frame in Hp as [Hm _]. eapply only_marks_other_key; eassumption.
Qed.

Lemma step_other_key s ev k :
  (forall i, k <> triggeredKey i) ->
  localStorage (outside (step s ev)) !! k = localStorage (outside s) !! k.
Proof.
  intros Hk. destruct (step_outside s ev) as [-> | (now & E & l & ->)]; [reflexivity|].
  apply checkAlarms_other_key, Hk.
Qed.

Lemma update_other_key l auth now E s k :
  (forall i, k <> triggeredKey i) ->
  localStorage (outside (update l auth now E s)) !! k = localStorage (outside s) !! k.
Proof.
  intros Hk. rewrite update_outside. destruct (auth && _); [|reflexivity].
  apply checkAlarms_other_key, Hk.
Qed.

(** A change of the store leaves the timers alone. *)
Lemma on_storage_timers f s :
  (timer_invariant s -> timer_invariant (on_storage f s)) /\
  (armed_for_current_list s -> armed_for_current_list (on_storage f s)).
Proof. split; intros H; exact H. Qed.

(** ** Every reachable state of the component *)

Lemma loadEffect_frame a :
  email (loadEffect a) = email a /\ events (loadEffect a) = events a /\
  monitor (loadEffect a) = monitor a /\
  awaiting_auth (loadEffect a) = awaiting_auth a /\
  notices (loadEffect a) = notices a /\
  mounted (loadEffect a) = mounted a.
Proof. unfold loadEffect. destruct (_ && _); cbn; auto 10. Qed.

Lemma app_invariant_loadEffect a : app_invariant a -> app_invariant (loadEffect a).
Proof.
  unfold app_invariant, session_invariant.
  destruct (loadEffect_frame a) as (-> & _ & -> & -> & _ & ->). auto.
Qed.

Lemma firstRender_monitor now E w : monitor (firstRender now E w) = initial w.
Proof. reflexivity. Qed.

Lemma firstRender_state now E w :
  firstRender now E w =
  {| email := ""; events := []; loading := false; monitor := initial w;
     awaiting_auth := None; requests := []; notices := []; mounted := true |}.
Proof. reflexivity. Qed.

Lemma armed_initial w : armed_for_current_list (initial w).
Proof. reflexivity. Qed.

Lemma app_invariant_firstRender now E w : app_invariant (firstRender now E w).
Proof.
  rewrite firstRender_state. split.
  - exact (conj (timer_invariant_initial w) (armed_initial w)).
  - split; cbn; [discriminate | intros e; discriminate].
Qed.

Lemma setItem_Normal E k v w w' u :
  setItem E k v w = (w', Normal u) ->
  localStorage w' = <[k := v]> (localStorage w) /\ trace w' = trace w.
Proof.
  unfold setItem. destruct (setItem_stores E k); [|discriminate].
  intros [= <- _]. auto.
Qed.

(** The body of the effect throws only in its immediate pass, which it runs
    only under its guard. *)
Lemma update_completion_Throw l auth now E s x :
  update_completion l auth now E s = Throw x ->
  auth = true /\ (0 <? length l)%nat = true.
Proof.
  unfold update_completion, monitoringEffect. cbn [render isAuthenticated alarms].
  destruct auth; [|discriminate]. destruct (0 <? length l)%nat; [auto | discriminate].
Qed.

Lemma session_invariant_unmounted a :
  (forall e, awaiting_auth a = Some e -> False) -> session_invariant (unmounted a).
Proof.
  intros Hnone. split; cbn; [discriminate|].
  intros e He. exfalso. exact (Hnone e He).
Qed.

(** The end of a commit in which the monitoring effect has re-run keeps the
    invariant, whether the effect returned or threw. *)
Lemma app_invariant_effects_done l auth now E m a1 :
  monitor a1 = update l auth now E m ->
  mounted a1 = true ->
  timer_invariant m ->
  session_invariant a1 ->
  app_invariant (effects_done (update_completion l auth now E m) a1).
Proof.
  intros Hm Hmo Ht Hs.
  destruct (update_completion l auth now E m) as [u|x] eqn:Hc; cbn [effects_done].
  - split; [|exact Hs]. rewrite Hmo, Hm.
    split; [apply timer_invariant_update, Ht | apply update_armed, Ht].
  - apply update_completion_Throw in Hc as [-> _].
    split; [reflexivity|]. apply session_invariant_unmounted.
    intros e He. destruct Hs as [_ Hs2]. destruct (Hs2 e He) as [Hf _].
    rewrite Hm in Hf. destruct (update_state l true now E m) as [_ Hau]. congruence.
Qed.

Lemma effects_done_outside c a :
  outside (monitor (effects_done c a)) = outside (monitor a) /\
  requests (effects_done c a) = requests a /\
  notices (effects_done c a) = notices a.
Proof. destruct c; cbn; auto. Qed.

Lemma match_not_success (s : string) (X : Type) (x y : X) :
  s <> "success" ->
  match s with "success" => x | _ => y end = y.
Proof.
  intros Hne.
  repeat (match goal with
          | s : string |- _ => destruct s as [|[[] [] [] [] [] [] [] []] s]
          end; try reflexivity); congruence.
Qed.

Lemma app_invariant_mount emailParam authSuccess now E w :
  app_invariant (fst (mount emailParam authSuccess now E w)).
Proof.
  pose proof (app_invariant_firstRender now E w) as Hfirst.
  assert (Hsaved :
    app_invariant
      (fst (match localStorage (outside (monitor (firstRender now E w))) !! "userEmail" with
            | Some (String c e) =>
                (loadEffect
                   {| email := String c e; events := events (firstRender now E w);
                      loading := loading (firstRender now E w);
                      monitor := monitor (firstRender now E w);
                      awaiting_auth := Some (String c e);
                      requests := requests (firstRender now E w) ++
                                  [GetAuthStatus (String c e)];
                      notices := notices (firstRender now E w); mounted := true |},
                 Normal tt)
            | _ => (firstRender now E w, Normal tt)
            end))).
  { destruct (localStorage _ !! "userEmail") as [[|c e]|] eqn:Hs; cbn [fst]; try exact Hfirst.
    apply app_invariant_loadEffect. destruct Hfirst as (Hta & _).
    split; [exact Hta|]. unfold session_invariant. cbn [monitor email awaiting_auth].
    rewrite firstRender_monitor in *. split; [cbn; discriminate|].
    intros e' [= <-]. cbn. auto. }
  unfold mount. cbv zeta.
  destruct emailParam as [[|c e]|]; try exact Hsaved.
  destruct authSuccess as [s|]; try exact Hsaved.
  destruct (String.eqb_spec s "success") as [->|Hne].
  - destruct (setItem E "userEmail" (String c e) _) as [w' [u|x]] eqn:Hset; cbn [fst].
    + apply setItem_Normal in Hset as [Hst _].
      match goal with |- context [loadEffect ?x] =>
        destruct (loadEffect_frame x) as (Hl1 & _ & Hl3 & Hl4 & _ & Hl6) end.
      eapply app_invariant_effects_done.
      * rewrite Hl3. reflexivity.
      * rewrite Hl6. reflexivity.
      * apply on_storage_timers. rewrite firstRender_monitor. apply timer_invariant_initial.
      * unfold session_invariant. rewrite Hl1, Hl3, Hl4. cbn [monitor email awaiting_auth].
        split; [|intros e'; rewrite firstRender_state; discriminate].
        intros _. split; [reflexivity|].
        rewrite update_other_key by apply userEmail_not_marker.
        cbn. rewrite Hst. apply lookup_insert_eq.
    + split; [reflexivity|]. apply session_invariant_unmounted.
      intros e'. rewrite firstRender_state. discriminate.
  - rewrite (match_not_success s _ _ _ Hne). exact Hsaved.
Qed.

Lemma removeItem_lookup k s :
  localStorage (outside (removeItem k s)) !! k = None /\
  (forall k', k' <> k ->
     localStorage (outside (removeItem k s)) !! k' = localStorage (outside s) !! k') /\
  isAuthenticated (removeItem k s) = isAuthenticated s /\
  alarms (removeItem k s) = alarms s /\
  trace (outside (removeItem k s)) = trace (outside s).
Proof.
  unfold removeItem, on_storage. cbn. split; [apply lookup_delete_eq|].
  split; [|auto]. intros k' Hne. apply lookup_delete_ne. congruence.
Qed.

Lemma app_invariant_step a ev : app_invariant a -> app_invariant (app_step a ev).
Proof.
  intros Hinv. pose proof Hinv as (Hm & Hs1 & Hs2).
  destruct ev as [r now E | r | r now E | n | ok em | now E | h now E]; cbn [app_step].
  - (* the answer to the status request *)
    unfold checkAuthStatus_reply.
    destruct (awaiting_auth a) as [e0|] eqn:Haw; [|exact Hinv].
    destruct (Hs2 e0 eq_refl) as (Hauth & Hem & Htr & Hst).
    destruct r.
    + rewrite Hauth. cbn [negb]. rewrite andb_true_r.
      destruct (mounted a) eqn:Hmo.
      * destruct Hm as [Ht Ha].
        match goal with |- context [loadEffect ?x] =>
          destruct (loadEffect_frame x) as (Hl1 & _ & Hl3 & Hl4 & _ & Hl6) end.
        eapply app_invariant_effects_done;
          [rewrite Hl3; reflexivity | rewrite Hl6; reflexivity | exact Ht |].
        unfold session_invariant. rewrite Hl1, Hl3, Hl4. cbn [monitor email awaiting_auth].
        split; [|intros e'; discriminate]. intros _. rewrite Hem. split; [exact Htr|].
        rewrite update_other_key by apply userEmail_not_marker. exact Hst.
      * split; [cbn [mounted monitor]; exact Hm|].
        split; cbn [monitor email awaiting_auth]; [exact Hs1 | intros e'; discriminate].
    + split.
      * cbn [mounted monitor]. destruct (mounted a); [|exact Hm].
        destruct Hm as [Ht Ha]. split; apply on_storage_timers; assumption.
      * unfold session_invariant. cbn [monitor email awaiting_auth].
        destruct (removeItem_lookup "userEmail" (monitor a)) as (_ & _ & -> & _).
        split; [congruence | intros e'; discriminate].
    + split.
      * cbn [mounted monitor]. destruct (mounted a); [|exact Hm].
        destruct Hm as [Ht Ha]. split; apply on_storage_timers; assumption.
      * unfold session_invariant. cbn [monitor email awaiting_auth].
        destruct (removeItem_lookup "userEmail" (monitor a)) as (_ & _ & -> & _).
        split; [congruence | intros e'; discriminate].
  - (* the answer to the events request *)
    destruct r; (split; [exact Hm | split; assumption]).
  - (* the answer to the alarms request *)
    destruct r as [l|]; [|split; [exact Hm | split; assumption]].
    cbn [loadAlarms_reply]. destruct (mounted a) eqn:Hmo; [|exact Hinv].
    destruct Hm as [Ht Ha].
    eapply app_invariant_effects_done;
      [reflexivity | cbn [mounted]; first [reflexivity | exact Hmo] | exact Ht |].
    unfold session_invariant. cbn [monitor email awaiting_auth].
    destruct (update_state l (isAuthenticated (monitor a)) now E (monitor a)) as [_ ->].
    rewrite update_other_key by apply userEmail_not_marker. split; assumption.
  - (* a click on a delete button *)
    destruct (mounted a && isAuthenticated (monitor a) && negb (loading a)); [|exact Hinv].
    destruct (events a !! _); [|exact Hinv].
    destruct (eventCard _ _); exact Hinv.
  - (* the answer to the delete request *)
    unfold handleDeleteAlarm_reply.
    destruct ok; (split; [exact Hm | split; assumption]).
  - (* a click on the logout button *)
    destruct (mounted a) eqn:Hmo; [|exact Hinv].
    destruct (isAuthenticated (monitor a)) eqn:Hauth; [|exact Hinv]. cbn [andb].
    destruct Hm as [Ht Ha]. unfold handleLogout. cbv zeta.
    match goal with |- context [loadEffect ?x] =>
      destruct (loadEffect_frame x) as (Hl1 & _ & Hl3 & Hl4 & _ & Hl6) end.
    eapply app_invariant_effects_done;
      [rewrite Hl3; reflexivity
      | rewrite Hl6; cbn [mounted]; first [reflexivity | exact Hmo]
      | apply on_storage_timers, Ht |].
    unfold session_invariant. rewrite Hl1, Hl3, Hl4. cbn [monitor email awaiting_auth].
    destruct (update_state [] false now E (removeItem "userEmail" (monitor a))) as [_ ->].
    split; [discriminate|]. intros e' He'. destruct (Hs2 e' He') as [Hf _]. congruence.
  - (* a tick of the timer *)
    destruct (step_tick_state (monitor a) h now E) as (Hal & Hau & Hre & Hin).
    split.
    + cbn [mounted monitor]. destruct (mounted a).
      * destruct Hm as [Ht Ha]. split; [apply timer_invariant_step, Ht | apply tick_armed, Ha].
      * rewrite Hau. exact Hm.
    + unfold session_invariant. cbn [monitor email awaiting_auth]. rewrite Hau.
      rewrite step_other_key by apply userEmail_not_marker. split; assumption.
Qed.

Lemma app_invariant_run evs : forall a, app_invariant a -> app_invariant (app_run a evs).
Proof.
  induction evs as [|ev evs IH]; intros a Ha; [exact Ha|].
  apply IH, app_invariant_step, Ha.
Qed.

(** ** The timer follows the alarm list *)

Lemma reachable_invariant emailParam authSuccess now E w evs :
  app_invariant (app_run (fst (mount emailParam authSuccess now E w)) evs).
Proof. apply app_invariant_run, app_invariant_mount. Qed.

Lemma reachable_authenticated_is_mounted emailParam authSuccess now E w evs :
  isAuthenticated (monitor (app_run (fst (mount emailParam authSuccess now E w)) evs)) = true ->
  mounted (app_run (fst (mount emailParam authSuccess now E w)) evs) = true.
Proof.
  intros Hauth.
  destruct (reachable_invariant emailParam authSuccess now E w evs) as (Hm & _).
  destruct (mounted _); [reflexivity | congruence].
Qed.

(** X5: in every state the page can reach (answers of the backend, clicks
    and ticks in any order) in which the component is still mounted, a
    timer is active exactly when the component is authenticated and its
    alarm list is non-empty; it is the timer whose handle the ref holds, and
    its callback evaluates the current alarm list, never an earlier one.  A
    tick therefore either does nothing or runs one pass over the current
    list. *)
Theorem timer_evaluates_current_list
    (emailParam authSuccess : option string) (now : Z) (E : env) (w : world)
    (evs : list app_event) (h : nat) (now' : Z) (E' : env) :
  mounted (app_run (fst (mount emailParam authSuccess now E w)) evs) = true ->
  let s := monitor (app_run (fst (mount emailParam authSuccess now E w)) evs) in
  (if isAuthenticated s && (0 <? length (alarms s))%nat
   then exists h0, alarmCheckIntervalRef s = Some h0 /\ intervals s = {[ h0 := alarms s ]}
   else intervals s = ∅) /\
  (step s (TimerFires h now' E') = s \/
   isAuthenticated s = true /\ alarms s <> [] /\ alarmCheckIntervalRef s = Some h /\
   outside (step s (TimerFires h now' E')) =
     fst (checkAlarms now' E' (alarms s) (outside s))).
Proof.
  intros Hmo. cbn zeta.
  destruct (reachable_invariant emailParam authSuccess now E w evs) as (Hm & _).
  rewrite Hmo in Hm. destruct Hm as [_ Harm].
  set (s := monitor _) in *. split; [exact Harm|].
  unfold armed_for_current_list in Harm. cbn [step].
  destruct (isAuthenticated s) eqn:Hauth; cbn [andb] in Harm;
    [destruct (alarms s) as [|a0 l0] eqn:Hl; cbn in Harm|].
  - rewrite Harm, lookup_empty. left. reflexivity.
  - destruct Harm as (h0 & Hr & Hi). rewrite Hi.
    destruct (decide (h0 = h)) as [->|Hne].
    + rewrite lookup_singleton_eq. right. split; [reflexivity|]. split; [discriminate|].
      split; [exact Hr|]. apply on_outside_outside.
    + rewrite lookup_singleton_ne by exact Hne. left. reflexivity.
  - rewrite Harm, lookup_empty. left. reflexivity.
Qed.

Lemma timer_evaluates_current_list_witness :
  let s := monitor (app_run (fst (mount (Some "me@example.com") (Some "success")
                                    t_09_44_59 all_fine empty_world))
                      [AlarmsReply (Some [standup; review]) t_09_44_59 all_fine]) in
  (if isAuthenticated s && (0 <? length (alarms s))%nat
   then exists h0, alarmCheckIntervalRef s = Some h0 /\ intervals s = {[ h0 := alarms s ]}
   else intervals s = ∅) /\
  (step s (TimerFires 1 t_09_45_05 all_fine) = s \/
   isAuthenticated s = true /\ alarms s <> [] /\ alarmCheckIntervalRef s = Some 1%nat /\
   outside (step s (TimerFires 1 t_09_45_05 all_fine)) =
     fst (checkAlarms t_09_45_05 all_fine (alarms s) (outside s))).
Proof.
  apply (timer_evaluates_current_list (Some "me@example.com") (Some "success")
           t_09_44_59 all_fine empty_world
           [AlarmsReply (Some [standup; review]) t_09_44_59 all_fine]
           1%nat t_09_45_05 all_fine).
  vm_compute. reflexivity.
Defined.

(** ** A component unmounted by a throwing effect *)

Lemma update_completion_eq l auth now E s :
  update_completion l auth now E s =
  if auth && (0 <? length l)%nat
  then snd (checkAlarms now E l (outside s))
  else Normal tt.
Proof.
  unfold update_completion, monitoringEffect. cbn [render isAuthenticated alarms].
  destruct (auth && _); [|reflexivity].
  unfold startAlarmMonitoring, on_outside.
  destruct (clearCurrentInterval_frame (render l auth (monitoringCleanup s))) as (Ha & _ & Ho).
  cbn [setCheckInterval alarms outside]. rewrite Ha, Ho. cbn [render alarms outside].
  destruct (clearCurrentInterval_frame s) as (_ & _ & Ho'). unfold monitoringCleanup.
  rewrite Ho'. destruct (checkAlarms now E l (outside s)) as [w' c]. reflexivity.
Qed.

Lemma app_step_unmounted a ev :
  mounted a = false ->
  mounted (app_step a ev) = false /\
  intervals (monitor (app_step a ev)) = intervals (monitor a) /\
  alarms (monitor (app_step a ev)) = alarms (monitor a) /\
  isAuthenticated (monitor (app_step a ev)) = isAuthenticated (monitor a).
Proof.
  intros Hmo.
  destruct ev as [r now E | r | r now E | n | ok em | now E | h now E]; cbn [app_step].
  - unfold checkAuthStatus_reply. destruct (awaiting_auth a); [|auto].
    rewrite Hmo. destruct r; cbn; auto.
  - destruct r; cbn; auto.
  - destruct r; cbn [loadAlarms_reply]; rewrite ?Hmo; cbn; auto.
  - rewrite Hmo. cbn. auto.
  - unfold handleDeleteAlarm_reply. destruct ok; cbn; auto.
  - rewrite Hmo. cbn. auto.
  - cbn [mounted monitor].
    destruct (step_tick_state (monitor a) h now E) as (-> & -> & _ & ->). auto.
Qed.

Lemma app_run_unmounted evs : forall a,
  mounted a = false ->
  mounted (app_run a evs) = false /\
  intervals (monitor (app_run a evs)) = intervals (monitor a).
Proof.
  induction evs as [|ev evs IH]; intros a Hmo; [auto|].
  change (app_run a (ev :: evs)) with (app_run (app_step a ev) evs).
  destruct (app_step_unmounted a ev Hmo) as (H1 & H2 & _).
  destruct (IH _ H1) as [H3 H4]. split; [exact H3 | congruence].
Qed.

(** X14: when the answer to the alarms request reaches an authenticated,
    mounted component with a non-empty list and the immediate pass over
    that list throws, the component is unmounted with the new interval
    installed and no cleanup to cancel it.  Whatever arrives afterwards,
    the component stays unmounted and that interval stays active: a later
    answer to the alarms request changes nothing, and every tick of the
    interval runs a pass over the list of the run that threw. *)
Theorem unmounted_component_keeps_its_timer
    (emailParam authSuccess : option string) (now : Z) (E : env) (w : world)
    (evs later : list app_event) (l l' : list alarm) (now1 now2 now3 : Z) (E1 E2 E3 : env)
    (x : exn) :
  mounted (app_run (fst (mount emailParam authSuccess now E w)) evs) = true ->
  isAuthenticated (monitor (app_run (fst (mount emailParam authSuccess now E w)) evs)) = true ->
  l <> [] ->
  snd (checkAlarms now1 E1 l
         (outside (monitor (app_run (fst (mount emailParam authSuccess now E w)) evs))))
    = Throw x ->
  let a := app_run (fst (mount emailParam authSuccess now E w)) evs in
  let crashed := app_step a (AlarmsReply (Some l) now1 E1) in
  let a' := app_run crashed later in
  mounted crashed = false /\
  mounted a' = false /\
  exists h,
    intervals (monitor crashed) = {[ h := l ]} /\
    intervals (monitor a') = {[ h := l ]} /\
    monitor (app_step a' (AlarmsReply (Some l') now2 E2)) = monitor a' /\
    outside (monitor (app_step a' (TimerTick h now3 E3))) =
      fst (checkAlarms now3 E3 l (outside (monitor a'))).
Proof.
  intros Hmo Hauth Hl Hthrow. cbn zeta.
  destruct (reachable_invariant emailParam authSuccess now E w evs) as (Hm & _).
  rewrite Hmo in Hm. destruct Hm as [Ht _].
  set (a := app_run _ evs) in *.
  assert (Hlen : (0 <? length l)%nat = true) by (destruct l; [congruence | reflexivity]).
  assert (Hc : update_completion l (isAuthenticated (monitor a)) now1 E1 (monitor a) = Throw x).
  { rewrite update_completion_eq, Hauth, Hlen. exact Hthrow. }
  pose proof (update_armed l true now1 E1 _ Ht) as Harm.
  unfold armed_for_current_list in Harm.
  destruct (update_state l true now1 E1 (monitor a)) as [Hal Hau].
  rewrite Hal, Hau, Hlen in Harm. cbn [andb] in Harm. destruct Harm as (h & _ & Hi).
  assert (Hcr : mounted (app_step a (AlarmsReply (Some l) now1 E1)) = false /\
                intervals (monitor (app_step a (AlarmsReply (Some l) now1 E1))) = {[ h := l ]}).
  { cbn [app_step loadAlarms_reply]. rewrite Hmo, Hc. cbn [effects_done].
    split; [reflexivity|]. cbn. rewrite Hauth. exact Hi. }
  destruct Hcr as [Hcr1 Hcr2].
  destruct (app_run_unmounted later _ Hcr1) as [Hl1 Hl2].
  set (a' := app_run (app_step a (AlarmsReply (Some l) now1 E1)) later) in *.
  split; [exact Hcr1|]. split; [exact Hl1|]. exists h.
  split; [exact Hcr2|]. split; [congruence|]. split.
  - cbn [app_step loadAlarms_reply]. rewrite Hl1. reflexivity.
  - cbn [app_step monitor step]. rewrite Hl2, Hcr2, lookup_singleton_eq.
    apply on_outside_outside.
Qed.

Lemma unmounted_component_keeps_its_timer_witness :
  let a := app_run (fst (mount (Some "me@example.com") (Some "success")
                           t_09_44_59 all_fine empty_world)) [] in
  let crashed := app_step a (AlarmsReply (Some [standup; review]) t_09_45_05
                               notification_throws) in
  let a' := app_run crashed [AlarmsReply (Some []) t_09_45_05 all_fine] in
  mounted crashed = false /\
  mounted a' = false /\
  exists h,
    intervals (monitor crashed) = {[ h := [standup; review] ]} /\
    intervals (monitor a') = {[ h := [standup; review] ]} /\
    monitor (app_step a' (AlarmsReply (Some []) t_09_45_15 all_fine)) = monitor a' /\
    outside (monitor (app_step a' (TimerTick h t_09_45_15 all_fine))) =
      fst (checkAlarms t_09_45_15 all_fine [standup; review] (outside (monitor a'))).
Proof.
  apply (unmounted_component_keeps_its_timer (Some "me@example.com") (Some "success")
           t_09_44_59 all_fine empty_world [] [AlarmsReply (Some []) t_09_45_05 all_fine]
           [standup; review] [] t_09_45_05 t_09_45_15 t_09_45_15
           notification_throws all_fine all_fine NotificationFailure).
  - reflexivity.
  - reflexivity.
  - discriminate.
  - reflexivity.
Defined.

(** ** The session *)

(** X6: in every state the mounted component can reach, if it is
    authenticated then its [email] is non-empty and is the address saved
    under ['userEmail'] in [localStorage]; no evaluation pass, answer of the
    backend or click breaks this. *)
Theorem authenticated_session_is_saved
    (emailParam authSuccess : option string) (now : Z) (E : env) (w : world)
    (evs : list app_event) :
  isAuthenticated (monitor (app_run (fst (mount emailParam authSuccess now E w)) evs)) = true ->
  js_truthy (email (app_run (fst (mount emailParam authSuccess now E w)) evs)) = true /\
  localStorage (outside (monitor (app_run (fst (mount emailParam authSuccess now E w)) evs)))
    !! "userEmail" =
  Some (email (app_run (fst (mount emailParam authSuccess now E w)) evs)).
Proof.
  destruct (reachable_invariant emailParam authSuccess now E w evs) as (_ & Hs & _).
  exact Hs.
Qed.

Lemma authenticated_session_is_saved_witness :
  let a := app_run (fst (mount (Some "me@example.com") (Some "success")
                           t_09_44_59 all_fine empty_world))
             [AlarmsReply (Some [standup; review]) t_09_45_05 all_fine;
              TimerTick 1 t_09_45_15 all_fine] in
  js_truthy (email a) = true /\
  localStorage (outside (monitor a)) !! "userEmail" = Some (email a).
Proof.
  apply (authenticated_session_is_saved (Some "me@example.com") (Some "success")
           t_09_44_59 all_fine empty_world
           [AlarmsReply (Some [standup; review]) t_09_45_05 all_fine;
            TimerTick 1 t_09_45_15 all_fine]).
  vm_compute. reflexivity.
Defined.

Lemma mount_saved now E w c e :
  localStorage w !! "userEmail" = Some (String c e) ->
  mount None None now E w =
  ({| email := String c e; events := []; loading := false; monitor := initial w;
      awaiting_auth := Some (String c e);
      requests := [GetAuthStatus (String c e)]; notices := []; mounted := true |},
   Normal tt).
Proof.
  intros Hs. unfold mount. cbv zeta. rewrite firstRender_state.
  cbn [monitor outside initial localStorage]. rewrite Hs. reflexivity.
Qed.

Lemma mount_nothing_saved now E w :
  localStorage w !! "userEmail" = None ->
  mount None None now E w = (firstRender now E w, Normal tt).
Proof.
  intros Hs. unfold mount. cbv zeta. rewrite firstRender_state.
  cbn [monitor outside initial localStorage]. rewrite Hs. reflexivity.
Qed.

(** X7: a reload of the page while the component is authenticated resumes
    the session: the freshly mounted component, started without URL
    parameters on the store as it is, shows the same address, is not yet
    authenticated and has sent exactly one status request, for that
    address; when the backend confirms, it is authenticated again and asks
    for the events and the alarms of that address. *)
Theorem reload_resumes_session
    (emailParam authSuccess : option string) (now : Z) (E : env) (w : world)
    (evs : list app_event) (now1 now2 : Z) (E1 E2 : env) :
  isAuthenticated (monitor (app_run (fst (mount emailParam authSuccess now E w)) evs)) = true ->
  let a := app_run (fst (mount emailParam authSuccess now E w)) evs in
  let reloaded := fst (mount None None now1 E1 (outside (monitor a))) in
  let confirmed := app_step reloaded (AuthStatusReply AuthConfirmed now2 E2) in
  snd (mount None None now1 E1 (outside (monitor a))) = Normal tt /\
  email reloaded = email a /\
  isAuthenticated (monitor reloaded) = false /\
  awaiting_auth reloaded = Some (email a) /\
  requests reloaded = [GetAuthStatus (email a)] /\
  isAuthenticated (monitor confirmed) = true /\
  email confirmed = email a /\
  requests confirmed =
    [GetAuthStatus (email a); GetCalendarEvents (email a); GetAlarms (email a)].
Proof.
  intros Hauth. cbn zeta.
  destruct (reachable_invariant emailParam authSuccess now E w evs) as (_ & Hs & _).
  destruct (Hs Hauth) as [Htr Hst]. clear Hs.
  set (a := app_run _ evs) in *.
  destruct (email a) as [|c e] eqn:Hem; [discriminate|].
  rewrite (mount_saved now1 E1 _ c e Hst). cbn [fst snd email monitor awaiting_auth requests].
  repeat (split; [reflexivity|]).
  cbn [app_step]. unfold checkAuthStatus_reply.
  cbn [awaiting_auth monitor isAuthenticated initial email events loading requests notices].
  unfold loadEffect. cbn [monitor email].
  destruct (update_state (alarms (initial (outside (monitor a)))) true now2 E2
              (initial (outside (monitor a)))) as [_ ->].
  cbn. auto.
Qed.

Lemma reload_resumes_session_witness :
  let a := app_run (fst (mount (Some "me@example.com") (Some "success")
                           t_09_44_59 all_fine empty_world))
             [AlarmsReply (Some [standup]) t_09_45_05 all_fine] in
  let reloaded := fst (mount None None t_09_45_15 all_fine (outside (monitor a))) in
  let confirmed := app_step reloaded (AuthStatusReply AuthConfirmed t_10_00_00 all_fine) in
  snd (mount None None t_09_45_15 all_fine (outside (monitor a))) = Normal tt /\
  email reloaded = email a /\
  isAuthenticated (monitor reloaded) = false /\
  awaiting_auth reloaded = Some (email a) /\
  requests reloaded = [GetAuthStatus (email a)] /\
  isAuthenticated (monitor confirmed) = true /\
  email confirmed = email a /\
  requests confirmed =
    [GetAuthStatus (email a); GetCalendarEvents (email a); GetAlarms (email a)].
Proof.
  apply (reload_resumes_session (Some "me@example.com") (Some "success")
           t_09_44_59 all_fine empty_world
           [AlarmsReply (Some [standup]) t_09_45_05 all_fine]
           t_09_45_15 t_10_00_00 all_fine all_fine).
  vm_compute. reflexivity.
Defined.

(** X8: when the backend denies the saved address, or the status request
    fails, the saved address is removed from [localStorage] and the
    component stays unauthenticated; the next load of the page then finds
    nothing saved, sends no request and shows the landing page. *)
Theorem rejected_session_is_forgotten
    (a : App) (e : string) (r : auth_reply) (now now' : Z) (E E' : env) :
  awaiting_auth a = Some e ->
  r <> AuthConfirmed ->
  let a' := app_step a (AuthStatusReply r now E) in
  localStorage (outside (monitor a')) !! "userEmail" = None /\
  isAuthenticated (monitor a') = isAuthenticated (monitor a) /\
  awaiting_auth a' = None /\
  mount None None now' E' (outside (monitor a')) =
    (firstRender now' E' (outside (monitor a')), Normal tt) /\
  requests (firstRender now' E' (outside (monitor a'))) = [] /\
  isAuthenticated (monitor (firstRender now' E' (outside (monitor a')))) = false.
Proof.
  intros Haw Hr. cbn zeta. cbn [app_step]. unfold checkAuthStatus_reply. rewrite Haw.
  destruct (removeItem_lookup "userEmail" (monitor a)) as (Hnone & _ & Hauth & _).
  destruct r; [congruence| |]; cbn [monitor awaiting_auth];
    (split; [exact Hnone|]); (split; [exact Hauth|]); (split; [reflexivity|]);
    (split; [apply mount_nothing_saved, Hnone | split; reflexivity]).
Qed.

Lemma rejected_session_is_forgotten_witness :
  let a := fst (mount None None t_09_44_59 all_fine
                  (mkWorld {[ "userEmail" := "me@example.com" ]} [])) in
  let a' := app_step a (AuthStatusReply AuthDenied t_09_45_00 all_fine) in
  localStorage (outside (monitor a')) !! "userEmail" = None /\
  isAuthenticated (monitor a') = isAuthenticated (monitor a) /\
  awaiting_auth a' = None /\
  mount None None t_09_45_05 all_fine (outside (monitor a')) =
    (firstRender t_09_45_05 all_fine (outside (monitor a')), Normal tt) /\
  requests (firstRender t_09_45_05 all_fine (outside (monitor a'))) = [] /\
  isAuthenticated (monitor (firstRender t_09_45_05 all_fine (outside (monitor a')))) = false.
Proof.
  apply (rejected_session_is_forgotten
           (fst (mount None None t_09_44_59 all_fine
                   (mkWorld {[ "userEmail" := "me@example.com" ]} [])))
           "me@example.com" AuthDenied t_09_45_00 t_09_45_05 all_fine all_fine).
  - vm_compute. reflexivity.
  - discriminate.
Defined.

(** X9: a click on the logout button, in any state the component can reach
    while authenticated, empties the address, the events and the alarm
    list, ends the authentication, removes ['userEmail'] from
    [localStorage] and nothing else (every dedup marker stays), runs no
    evaluation pass and leaves no timer active; any later tick changes
    nothing, and a reload finds nothing saved. *)
Theorem logout_ends_monitoring
    (emailParam authSuccess : option string) (now : Z) (E : env) (w : world)
    (evs : list app_event) (now1 now2 : Z) (E1 E2 : env) (h : nat) :
  isAuthenticated (monitor (app_run (fst (mount emailParam authSuccess now E w)) evs)) = true ->
  let a := app_run (fst (mount emailParam authSuccess now E w)) evs in
  let a' := app_step a (ClickLogout now1 E1) in
  email a' = "" /\ events a' = [] /\ alarms (monitor a') = [] /\
  isAuthenticated (monitor a') = false /\
  intervals (monitor a') = ∅ /\
  localStorage (outside (monitor a')) = delete "userEmail" (localStorage (outside (monitor a))) /\
  (forall i, has_fired (localStorage (outside (monitor a'))) i =
             has_fired (localStorage (outside (monitor a))) i) /\
  trace (outside (monitor a')) = trace (outside (monitor a)) /\
  monitor (app_step a' (TimerTick h now2 E2)) = monitor a' /\
  mount None None now2 E2 (outside (monitor a')) =
    (firstRender now2 E2 (outside (monitor a')), Normal tt).
Proof.
  intros Hauth. cbn zeta.
  pose proof (reachable_authenticated_is_mounted _ _ _ _ _ _ Hauth) as Hmo.
  destruct (reachable_invariant emailParam authSuccess now E w evs) as (Hm & _).
  rewrite Hmo in Hm. destruct Hm as [Ht _].
  set (a := app_run _ evs) in *. cbn [app_step]. rewrite Hmo, Hauth. cbn [andb].
  unfold handleLogout. cbv zeta.
  assert (Hc : update_completion [] false now1 E1 (removeItem "userEmail" (monitor a))
               = Normal tt) by (rewrite update_completion_eq; reflexivity).
  rewrite Hc. cbn [effects_done].
  match goal with |- context [loadEffect ?x] =>
    destruct (loadEffect_frame x) as (Hl1 & Hl2 & Hl3 & _); rewrite Hl1, Hl2, !Hl3 end.
  cbn [email events monitor].
  set (s' := update [] false now1 E1 (removeItem "userEmail" (monitor a))).
  assert (Hinv : timer_invariant (removeItem "userEmail" (monitor a)))
    by (apply on_storage_timers, Ht).
  destruct (update_state [] false now1 E1 (removeItem "userEmail" (monitor a))) as [Hal Hau].
  pose proof (update_armed [] false now1 E1 _ Hinv) as Harm.
  unfold armed_for_current_list in Harm. fold s' in Hal, Hau, Harm.
  rewrite Hau in Harm. cbn [andb] in Harm.
  assert (Hout : outside s' = outside (removeItem "userEmail" (monitor a)))
    by (unfold s'; rewrite update_outside; reflexivity).
  assert (Hst : localStorage (outside s') = delete "userEmail" (localStorage (outside (monitor a))))
    by (rewrite Hout; reflexivity).
  repeat (split; [first [reflexivity | assumption]|]).
  split; [|split; [|split]].
  - intros i. unfold has_fired. rewrite Hst, lookup_delete_ne; [reflexivity|].
    apply userEmail_not_marker.
  - rewrite Hout. reflexivity.
  - cbn [step]. rewrite Harm, lookup_empty. reflexivity.
  - apply mount_nothing_saved. rewrite Hst. apply lookup_delete_eq.
Qed.

Lemma logout_ends_monitoring_witness :
  let a := app_run (fst (mount (Some "me@example.com") (Some "success")
                           t_09_44_59 all_fine empty_world))
             [AlarmsReply (Some [standup]) t_09_45_05 all_fine] in
  let a' := app_step a (ClickLogout t_09_45_15 all_fine) in
  email a' = "" /\ events a' = [] /\ alarms (monitor a') = [] /\
  isAuthenticated (monitor a') = false /\
  intervals (monitor a') = ∅ /\
  localStorage (outside (monitor a')) = delete "userEmail" (localStorage (outside (monitor a))) /\
  (forall i, has_fired (localStorage (outside (monitor a'))) i =
             has_fired (localStorage (outside (monitor a))) i) /\
  trace (outside (monitor a')) = trace (outside (monitor a)) /\
  monitor (app_step a' (TimerTick 1 t_10_00_00 all_fine)) = monitor a' /\
  mount None None t_10_00_00 all_fine (outside (monitor a')) =
    (firstRender t_10_00_00 all_fine (outside (monitor a')), Normal tt).
Proof.
  apply (logout_ends_monitoring (Some "me@example.com") (Some "success")
           t_09_44_59 all_fine empty_world
           [AlarmsReply (Some [standup]) t_09_45_05 all_fine]
           t_09_45_15 t_10_00_00 all_fine all_fine 1%nat).
  vm_compute. reflexivity.
Defined.

(** ** The alarm shown on an event card *)

Lemma getAlarmForEvent_spec (alarms : list alarm) (eventId : string) :
  match getAlarmForEvent alarms eventId with
  | Some x =>
      exists l1 l2, alarms = l1 ++ x :: l2 /\ Alarm.event_id x = eventId /\
                    forall b, b ∈ l1 -> Alarm.event_id b <> eventId
  | None => forall b, b ∈ alarms -> Alarm.event_id b <> eventId
  end.
Proof.
  unfold getAlarmForEvent. induction alarms as [|a l IH]; cbn [find].
  - intros b Hb. apply elem_of_nil in Hb. contradiction.
  - destruct (String.eqb_spec (Alarm.event_id a) eventId) as [Heq | Hne].
    + exists [], l. split; [reflexivity|]. split; [exact Heq|].
      intros b Hb. apply elem_of_nil in Hb. contradiction.
    + destruct (find _ l) as [x|].
      * destruct IH as (l1 & l2 & -> & Hx & Hbefore).
        exists (a :: l1), l2. split; [reflexivity|]. split; [exact Hx|].
        intros b [-> | Hb]%elem_of_cons; [exact Hne | apply Hbefore, Hb].
      * intros b [-> | Hb]%elem_of_cons; [exact Hne | apply IH, Hb].
Qed.

(** X10: [getAlarmForEvent] returns the first alarm of the list whose
    [event_id] is the given identifier: the alarm it returns is in the list,
    belongs to the event, and no alarm before it in the list does; it
    returns nothing exactly when no alarm of the list belongs to the
    event.  An alarm of the same event further down the list is never
    shown. *)
Theorem getAlarmForEvent_first_match (alarms : list alarm) (eventId : string) :
  match getAlarmForEvent alarms eventId with
  | Some x =>
      exists l1 l2, alarms = l1 ++ x :: l2 /\ Alarm.event_id x = eventId /\
                    forall b, b ∈ l1 -> Alarm.event_id b <> eventId
  | None => forall b, b ∈ alarms -> Alarm.event_id b <> eventId
  end.
Proof. apply getAlarmForEvent_spec. Qed.

(** ** Markers outlive everything the component does *)

Lemma update_marked l auth now E s i :
  has_fired (localStorage (outside s)) i = true ->
  has_fired (localStorage (outside (update l auth now E s))) i = true /\
  fanout_count i (trace (outside (update l auth now E s))) = fanout_count i (trace (outside s)).
Proof.
  intros Hi. rewrite update_outside. destruct (auth && _); [|auto].
  apply checkAlarms_marked, Hi.
Qed.

Lemma removeItem_userEmail_marked s i :
  has_fired (localStorage (outside (removeItem "userEmail" s))) i =
  has_fired (localStorage (outside s)) i.
Proof.
  unfold has_fired.
  destruct (removeItem_lookup "userEmail" s) as (_ & Hother & _).
  rewrite Hother; [reflexivity|].
  intros Heq. exact (userEmail_not_marker i (eq_sym Heq)).
Qed.

Lemma app_step_marked a ev i :
  has_fired (localStorage (outside (monitor a))) i = true ->
  has_fired (localStorage (outside (monitor (app_step a ev)))) i = true /\
  fanout_count i (trace (outside (monitor (app_step a ev)))) =
  fanout_count i (trace (outside (monitor a))).
Proof.
  intros Hi.
  assert (Hrm : has_fired (localStorage (outside (removeItem "userEmail" (monitor a)))) i = true)
    by (rewrite removeItem_userEmail_marked; exact Hi).
  destruct ev as [r now E | r | r now E | n | ok em | now E | h now E]; cbn [app_step].
  - unfold checkAuthStatus_reply. destruct (awaiting_auth a); [|auto].
    destruct r; [destruct (mounted a && negb (isAuthenticated (monitor a))); [|auto]
                | auto | auto].
    rewrite (proj1 (effects_done_outside _ _)).
    match goal with |- context [loadEffect ?x] =>
      destruct (loadEffect_frame x) as (_ & _ & -> & _) end.
    cbn [monitor]. apply update_marked, Hi.
  - destruct r; auto.
  - destruct r as [l|]; [|auto]. cbn [loadAlarms_reply].
    destruct (mounted a); [|auto].
    rewrite (proj1 (effects_done_outside _ _)). cbn [monitor]. apply update_marked, Hi.
  - destruct (mounted a && isAuthenticated (monitor a) && negb (loading a)); [|auto].
    destruct (events a !! _); [|auto]. destruct (eventCard _ _); auto.
  - unfold handleDeleteAlarm_reply. destruct ok; auto.
  - destruct (mounted a && isAuthenticated (monitor a)); [|auto]. unfold handleLogout.
    cbv zeta. rewrite (proj1 (effects_done_outside _ _)).
    match goal with |- context [loadEffect ?x] =>
      destruct (loadEffect_frame x) as (_ & _ & -> & _) end.
    cbn [monitor]. destruct (update_marked [] false now E _ i Hrm) as [H1 H2].
    split; [exact H1|]. rewrite H2. reflexivity.
  - cbn [monitor]. cbn [step]. destruct (intervals (monitor a) !! h) as [l|]; [|auto].
    rewrite on_outside_outside. apply checkAlarms_marked, Hi.
Qed.

Lemma mount_marked emailParam authSuccess now E w i :
  has_fired (localStorage w) i = true ->
  has_fired (localStorage (outside (monitor (fst (mount emailParam authSuccess now E w))))) i
    = true /\
  fanout_count i (trace (outside (monitor (fst (mount emailParam authSuccess now E w))))) =
  fanout_count i (trace w).
Proof.
  intros Hi.
  assert (Hsaved : forall (r : App * completion unit),
            r = (match localStorage (outside (monitor (firstRender now E w))) !! "userEmail" with
                 | Some (String c e) =>
                     (loadEffect
                        {| email := String c e; events := events (firstRender now E w);
                           loading := loading (firstRender now E w);
                           monitor := monitor (firstRender now E w);
                           awaiting_auth := Some (String c e);
                           requests := requests (firstRender now E w) ++
                                       [GetAuthStatus (String c e)];
                           notices := notices (firstRender now E w);
                           mounted := true |}, Normal tt)
                 | _ => (firstRender now E w, Normal tt)
                 end) ->
            has_fired (localStorage (outside (monitor (fst r)))) i = true /\
            fanout_count i (trace (outside (monitor (fst r)))) = fanout_count i (trace w)).
  { intros r ->. destruct (localStorage _ !! "userEmail") as [[|c e]|]; cbn [fst]; auto. }
  unfold mount. cbv zeta.
  destruct emailParam as [[|c e]|]; try (apply Hsaved; reflexivity).
  destruct authSuccess as [s|]; try (apply Hsaved; reflexivity).
  destruct (String.eqb_spec s "success") as [->|Hne].
  - destruct (setItem E "userEmail" (String c e) _) as [w' [u|x]] eqn:Hset; cbn [fst];
      [|auto].
    apply setItem_Normal in Hset as [Hst Htr].
    rewrite (proj1 (effects_done_outside _ _)).
    match goal with |- context [loadEffect ?x] =>
      destruct (loadEffect_frame x) as (_ & _ & -> & _) end.
    cbn [monitor]. apply update_marked. cbn. rewrite Hst.
    unfold has_fired. rewrite lookup_insert_ne; [exact Hi | apply userEmail_not_marker].
  - rewrite (match_not_success s _ _ _ Hne). apply Hsaved. reflexivity.
Qed.

(** X11: a dedup marker that is in [localStorage] when the page is loaded is
    still there in every state the component reaches, and [triggerAlarm] is
    never called for its identifier: neither the sign-in callback, nor a
    denied session, nor a logout, nor a reload of the alarm list, nor any
    tick removes a marker; the only key the component ever removes is
    ['userEmail']. *)
Theorem markers_survive_the_component
    (emailParam authSuccess : option string) (now : Z) (E : env) (w : world)
    (evs : list app_event) (i : string) :
  has_fired (localStorage w) i = true ->
  has_fired (localStorage (outside (monitor
     (app_run (fst (mount emailParam authSuccess now E w)) evs)))) i = true /\
  fanout_count i (trace (outside (monitor
     (app_run (fst (mount emailParam authSuccess now E w)) evs)))) =
  fanout_count i (trace w).
Proof.
  intros Hi. destruct (mount_marked emailParam authSuccess now E w i Hi) as [H0 C0].
  rewrite <- C0. clear C0. revert H0.
  generalize (fst (mount emailParam authSuccess now E w)). clear.
  induction evs as [|ev evs IH]; intros a Ha; [auto|].
  change (app_run a (ev :: evs)) with (app_run (app_step a ev) evs).
  destruct (app_step_marked a ev i Ha) as [H1 C1].
  destruct (IH _ H1) as [H2 C2]. split; [exact H2 | congruence].
Qed.

Lemma markers_survive_the_component_witness :
  has_fired (localStorage (outside (monitor
     (app_run (fst (mount (Some "me@example.com") (Some "success") t_09_44_59 all_fine
                      (mkWorld {[ "alarm_triggered_a1" := "true" ]} [])))
        [AlarmsReply (Some [standup]) t_09_45_05 all_fine;
         TimerTick 1 t_09_45_15 all_fine;
         ClickLogout t_09_45_15 all_fine])))) "a1" = true /\
  fanout_count "a1" (trace (outside (monitor
     (app_run (fst (mount (Some "me@example.com") (Some "success") t_09_44_59 all_fine
                      (mkWorld {[ "alarm_triggered_a1" := "true" ]} [])))
        [AlarmsReply (Some [standup]) t_09_45_05 all_fine;
         TimerTick 1 t_09_45_15 all_fine;
         ClickLogout t_09_45_15 all_fine])))) =
  fanout_count "a1" (trace (mkWorld {[ "alarm_triggered_a1" := "true" ]} [])).
Proof.
  apply (markers_survive_the_component (Some "me@example.com") (Some "success")
           t_09_44_59 all_fine (mkWorld {[ "alarm_triggered_a1" := "true" ]} [])
           [AlarmsReply (Some [standup]) t_09_45_05 all_fine;
            TimerTick 1 t_09_45_15 all_fine;
            ClickLogout t_09_45_15 all_fine] "a1").
  vm_compute. reflexivity.
Defined.

(** ** Never early, never late *)

Lemma due_true now i l :
  due now i l = true -> exists a, a ∈ l /\ Alarm.id a = i /\ in_firing_window now a = true.
Proof.
  unfold due. intros (a & Ha & Hc)%existsb_exists.
  apply andb_true_iff in Hc as [Hid Hw]. apply String.eqb_eq in Hid.
  exists a. split; [apply list_elem_of_In, Ha | auto].
Qed.

(** X12: whenever an evaluation pass calls [triggerAlarm] for an
    identifier, whatever the surroundings do, the list holds an alarm with
    that identifier whose start instant is a valid date, whose lead time is
    at least one minute, and for which the clock value of the pass lies in
    the half-open interval from the trigger instant to the start: the
    fan-out is never called before the trigger instant and never at or
    after the start of the event. *)
Theorem fanout_only_inside_window
    (now : Z) (E : env) (l : list alarm) (w : world) (i : string) :
  (fanout_count i (trace w) < fanout_count i (trace (fst (checkAlarms now E l w))))%nat ->
  exists a start,
    a ∈ l /\ Alarm.id a = i /\ eventTime a = Some start /\
    1 <= Alarm.alarm_minutes_before a /\
    trigger_instant start (Alarm.alarm_minutes_before a) <= now < start.
Proof.
  rewrite checkAlarms_unfold.
  destruct (forEach _ _ _) as [w' c] eqn:Hl. cbn [fst].
  destruct (forEach_fanout_sound _ _ _ _ _ _ Hl) as (t & Ht & Hc).
  cbn [trace localStorage] in *. rewrite Ht, !fanout_count_app. cbn.
  destruct (Hc i) as [Hle Hone]. intros Hlt.
  assert (H1 : fanout_count i t = 1%nat) by lia.
  destruct (Hone H1) as [Hdue _].
  destruct (due_true _ _ _ Hdue) as (a & Ha & Hid & Hw).
  destruct (in_firing_window_true _ _ Hw) as (start & He & _ & Hr).
  exists a, start. repeat (split; [assumption|]).
  split; [unfold trigger_instant in Hr; lia | exact Hr].
Qed.

Lemma fanout_only_inside_window_witness :
  exists a start,
    a ∈ [zero_lead; standup] /\ Alarm.id a = "a1" /\ eventTime a = Some start /\
    1 <= Alarm.alarm_minutes_before a /\
    trigger_instant start (Alarm.alarm_minutes_before a) <= t_09_45_05 < start.
Proof.
  apply (fanout_only_inside_window t_09_45_05 all_fine [zero_lead; standup] empty_world "a1").
  vm_compute. lia.
Defined.

(** ** The delete button *)



